(** * Scalar broadcast kernels of [internal/block/column/c/operations_arm64.c]

    The C file holds ten kernels, one per integer width (32, 64) and
    operation (add, sub, mul, div, mod).  Each one is the same counted loop

      for (int i = 0; i < len; i++) result[i] = a[i] OP b;

    over caller-owned buffers.  The embedding below keeps that shape:

    - memory is a finite map from cell addresses to the integers stored
      there; a pointer [intW_t *p] is the address of a W-bit cell and
      [p[i]] is the cell [p + i];
    - a W-bit signed integer is a [Z]; [+], [-] and [*] wrap around modulo
      [2^W] ([sint]);
    - [/] and [%] are the truncating quotient and its remainder where C
      defines them.  For a zero divisor, and for [MIN_VALUE] divided by
      [-1], C defines no result: there [div_w] and [mod_w] are [None];
    - the kernels return [void] and test none of their arguments.  A run
      has one of two outcomes: [Some m'], the call returned and left the
      memory [m']; or [None], the source defines no outcome for the call,
      because a round read or wrote a cell that is not allocated or
      evaluated a division that has no result.  There is no error
      outcome. *)

From Stdlib Require Import ZArith Lia.
From stdpp Require Import base option gmap.

Local Open Scope Z_scope.

(** ** Widths and W-bit signed integers *)

Inductive width := W32 | W64.

Definition bits (W : width) : Z :=
  match W with W32 => 32 | W64 => 64 end.

Definition modulus (W : width) : Z := 2 ^ bits W.
Definition half_modulus (W : width) : Z := 2 ^ (bits W - 1).
Definition MIN_VALUE (W : width) : Z := - half_modulus W.
Definition MAX_VALUE (W : width) : Z := half_modulus W - 1.

Definition in_range (W : width) (z : Z) : Prop :=
  MIN_VALUE W <= z <= MAX_VALUE W.

(** The signed value of the low W bits of [z]. *)
Definition sint (W : width) (z : Z) : Z :=
  let r := z mod modulus W in
  if r <? half_modulus W then r else r - modulus W.

(** ** The operators of the loop bodies *)

Definition add_w (W : width) (x y : Z) : Z := sint W (x + y).
Definition sub_w (W : width) (x y : Z) : Z := sint W (x - y).
Definition mul_w (W : width) (x y : Z) : Z := sint W (x * y).

(** [x / y] and [x % y] have a result when the divisor is not zero and the
    quotient is representable, which fails for [MIN_VALUE / -1] only. *)
Definition division_defined (W : width) (x y : Z) : bool :=
  negb (y =? 0) && negb ((x =? MIN_VALUE W) && (y =? -1)).

Definition div_w (W : width) (x y : Z) : option Z :=
  if division_defined W x y then Some (Z.quot x y) else None.

Definition mod_w (W : width) (x y : Z) : option Z :=
  if division_defined W x y then Some (Z.rem x y) else None.

(** ** Memory *)

Abbreviation mem := (gmap Z Z).

Definition load (m : mem) (p : Z) : option Z := m !! p.

Definition store (m : mem) (p : Z) (v : Z) : option mem :=
  match m !! p with
  | Some _ => Some (<[p := v]> m)
  | None => None
  end.

(** ** The loop

    [for (int i = i0; i < len; i++) body].  The body never assigns [i] or
    [len], so the loop runs at most [len - i0] times; [for_from] takes that
    count as its structural argument and still tests the guard on every
    round, and [for_from_unfold] below shows that the count never cuts a
    loop short.  [i < len <= INT_MAX], so [i++] cannot wrap. *)

Fixpoint for_from (n : nat) (body : Z -> mem -> option mem)
    (i len : Z) (m : mem) : option mem :=
  match n with
  | O => Some m
  | S n' =>
      if i <? len
      then m' ← body i m; for_from n' body (i + 1) len m'
      else Some m
  end.

Definition for_loop (len : Z) (body : Z -> mem -> option mem) (m : mem)
    : option mem :=
  for_from (Z.to_nat len) body 0 len m.

(** ** The ten kernels *)

Definition int64_add_scalar (a b result len : Z) (m : mem) : option mem :=
  for_loop len (fun i m =>
    x ← load m (a + i); store m (result + i) (add_w W64 x b)) m.

Definition int64_sub_scalar (a b result len : Z) (m : mem) : option mem :=
  for_loop len (fun i m =>
    x ← load m (a + i); store m (result + i) (sub_w W64 x b)) m.

Definition int64_mul_scalar (a b result len : Z) (m : mem) : option mem :=
  for_loop len (fun i m =>
    x ← load m (a + i); store m (result + i) (mul_w W64 x b)) m.

Definition int64_div_scalar (a b result len : Z) (m : mem) : option mem :=
  for_loop len (fun i m =>
    x ← load m (a + i); q ← div_w W64 x b; store m (result + i) q) m.

Definition int64_mod_scalar (a b result len : Z) (m : mem) : option mem :=
  for_loop len (fun i m =>
    x ← load m (a + i); r ← mod_w W64 x b; store m (result + i) r) m.

Definition int32_add_scalar (a b result len : Z) (m : mem) : option mem :=
  for_loop len (fun i m =>
    x ← load m (a + i); store m (result + i) (add_w W32 x b)) m.

Definition int32_sub_scalar (a b result len : Z) (m : mem) : option mem :=
  for_loop len (fun i m =>
    x ← load m (a + i); store m (result + i) (sub_w W32 x b)) m.

Definition int32_mul_scalar (a b result len : Z) (m : mem) : option mem :=
  for_loop len (fun i m =>
    x ← load m (a + i); store m (result + i) (mul_w W32 x b)) m.

Definition int32_div_scalar (a b result len : Z) (m : mem) : option mem :=
  for_loop len (fun i m =>
    x ← load m (a + i); q ← div_w W32 x b; store m (result + i) q) m.

Definition int32_mod_scalar (a b result len : Z) (m : mem) : option mem :=
  for_loop len (fun i m =>
    x ← load m (a + i); r ← mod_w W32 x b; store m (result + i) r) m.

(** ** Selecting a kernel by operation and width *)

Inductive operation := Add | Subtract | Multiply | Divide | Modulo.

Definition kernel (o : operation) (W : width)
    : Z -> Z -> Z -> Z -> mem -> option mem :=
  match W, o with
  | W64, Add => int64_add_scalar
  | W64, Subtract => int64_sub_scalar
  | W64, Multiply => int64_mul_scalar
  | W64, Divide => int64_div_scalar
  | W64, Modulo => int64_mod_scalar
  | W32, Add => int32_add_scalar
  | W32, Subtract => int32_sub_scalar
  | W32, Multiply => int32_mul_scalar
  | W32, Divide => int32_div_scalar
  | W32, Modulo => int32_mod_scalar
  end.

Definition is_division (o : operation) : bool :=
  match o with Divide | Modulo => true | _ => false end.

(** The value of the operator in the body of [kernel o W], where the
    operator has one. *)
Definition machine_op (o : operation) (W : width) : Z -> Z -> Z :=
  match o with
  | Add => add_w W
  | Subtract => sub_w W
  | Multiply => mul_w W
  | Divide => Z.quot
  | Modulo => Z.rem
  end.

(** Whether it has one: always for [+ - *]. *)
Definition op_defined (o : operation) (W : width) (x y : Z) : bool :=
  if is_division o then division_defined W x y else true.

(** The operator of [kernel o W] with its domain. *)
Definition partial_op (o : operation) (W : width) (x y : Z) : option Z :=
  if op_defined o W x y then Some (machine_op o W x y) else None.

(** ** What the specification asks of each operation *)

(** The mathematical result, before any reduction to W bits.  [Z.quot] and
    [Z.rem] are the truncating quotient and its remainder. *)
Definition exact (o : operation) (x y : Z) : Z :=
  match o with
  | Add => x + y
  | Subtract => x - y
  | Multiply => x * y
  | Divide => Z.quot x y
  | Modulo => Z.rem x y
  end.

(** Two's-complement wraparound as the specification's glossary words it:
    the result reduced modulo [2^W] into the signed range. *)
Definition wrapping (W : width) (z : Z) : Z :=
  (z + half_modulus W) mod modulus W - half_modulus W.

(** The table of per-operation semantics of the specification. *)
Definition spec_value (o : operation) (W : width) (x y : Z) : Z :=
  match o with
  | Add | Subtract | Multiply => wrapping W (exact o x y)
  | Divide | Modulo => exact o x y
  end.

(** ** Buffers *)

(** The [n] cells from [p] on are allocated. *)
Definition allocated (m : mem) (p n : Z) : Prop :=
  forall i, 0 <= i < n -> is_Some (m !! (p + i)).

(** The two ways the specification lets [result] relate to [a]. *)
Definition aliased (a result : Z) : Prop := result = a.
Definition disjoint (a result len : Z) : Prop :=
  result + len <= a \/ a + len <= result.

(** What the loop needs: no cell is written before it is read. *)
Definition no_clobber (a result len : Z) : Prop :=
  result <= a \/ a + len <= result.

(** The body shared by the ten kernels, over an operator with a domain. *)
Definition elementwise (g : Z -> Z -> option Z) (a b result : Z)
    : Z -> mem -> option mem :=
  fun i m => x ← load m (a + i); v ← g x b; store m (result + i) v.

(** The caller's obligation for divide and modulo: a nonzero scalar, and
    no element [MIN_VALUE] when the scalar is [-1]. *)
Definition division_precondition (o : operation) (W : width)
    (a b len : Z) (m : mem) : Prop :=
  is_division o = true ->
  b <> 0 /\
  forall i, 0 <= i < len -> ~ (m !! (a + i) = Some (MIN_VALUE W) /\ b = -1).

(** ** A small memory for the examples *)

(** Four cells; the examples take [a = 0] and [result = 2], two cells
    each, or run in place. *)
Definition example_mem (x0 x1 : Z) : mem :=
  list_to_map [(0, x0); (1, x1); (2, 77); (3, 88)].

(** ** Notions for the further properties *)

(** [n] rounds of a one-argument function. *)
Fixpoint iterate_op (n : nat) (g : Z -> Z) (x : Z) : Z :=
  match n with
  | O => x
  | S n' => iterate_op n' g (g x)
  end.

(** Scalars that make an operation the identity on W-bit integers. *)
Definition neutral_scalar (o : operation) (b : Z) : bool :=
  match o with
  | Add | Subtract => b =? 0
  | Multiply | Divide => b =? 1
  | Modulo => false
  end.

(** Scalars that make an operation constantly zero. *)
Definition zeroing_scalar (o : operation) (b : Z) : bool :=
  match o with
  | Multiply => b =? 0
  | Modulo => b =? 1
  | _ => false
  end.

(** * Properties *)

(** ** The operators and two runs, evaluated *)

Example mod_neg7_3 :
  mod_w W32 (-7) 3 = Some (-1) /\ mod_w W64 (-7) 3 = Some (-1) /\
  div_w W32 (-7) 3 = Some (-2).
Proof. repeat split; reflexivity. Qed.

Example division_without_result :
  div_w W64 5 0 = None /\ mod_w W64 5 0 = None /\
  div_w W64 (MIN_VALUE W64) (-1) = None /\
  mod_w W32 (MIN_VALUE W32) (-1) = None.
Proof. repeat split; reflexivity. Qed.

Example run_add :
  int64_add_scalar 0 10 2 2 (list_to_map [(0, 1); (1, 2); (2, 0); (3, 0)])
  = Some (list_to_map [(0, 1); (1, 2); (2, 11); (3, 12)]).
Proof. vm_compute. reflexivity. Qed.

Example run_div :
  int32_div_scalar 0 (-2) 2 2 (example_mem 7 (-9))
  = Some (list_to_map [(0, 7); (1, -9); (2, -3); (3, 4)]).
Proof. vm_compute. reflexivity. Qed.

(** ** W-bit arithmetic *)

Section Arith.
Variable W : width.

Lemma modulus_twice : modulus W = 2 * half_modulus W.
Proof. destruct W; reflexivity. Qed.

Lemma half_modulus_pos : 0 < half_modulus W.
Proof. destruct W; reflexivity. Qed.

Lemma sint_in_range z : in_range W (sint W z).
Proof.
  unfold in_range, sint, MIN_VALUE, MAX_VALUE.
  pose proof modulus_twice. pose proof half_modulus_pos.
  pose proof (Z.mod_pos_bound z (modulus W)).
  destruct (Z.ltb_spec (z mod modulus W) (half_modulus W)); lia.
Qed.

Lemma sint_congruent z : sint W z mod modulus W = z mod modulus W.
Proof.
  unfold sint. pose proof modulus_twice. pose proof half_modulus_pos.
  destruct (Z.ltb_spec (z mod modulus W) (half_modulus W)).
  - apply Z.mod_mod. lia.
  - replace (z mod modulus W - modulus W)
      with (z mod modulus W + (-1) * modulus W) by lia.
    rewrite Z.mod_add by lia. apply Z.mod_mod. lia.
Qed.

(** A value of the signed range is determined by its residue. *)
Lemma in_range_congruent_eq u v :
  in_range W u -> in_range W v ->
  u mod modulus W = v mod modulus W -> u = v.
Proof.
  unfold in_range, MIN_VALUE, MAX_VALUE.
  pose proof modulus_twice. pose proof half_modulus_pos.
  intros Hu Hv E.
  assert (D : (u - v) mod modulus W = 0).
  { rewrite Zminus_mod, E, Z.sub_diag. apply Z.mod_0_l. lia. }
  apply Z.mod_divide in D; [|lia]. destruct D as [k D].
  assert (k = 0) by nia. lia.
Qed.

Lemma sint_id z : in_range W z -> sint W z = z.
Proof.
  intros Hz. apply in_range_congruent_eq; auto using sint_in_range, sint_congruent.
Qed.

Lemma sint_congr_arg u v :
  u mod modulus W = v mod modulus W -> sint W u = sint W v.
Proof. unfold sint. intros ->. reflexivity. Qed.

Lemma wrapping_in_range z : in_range W (wrapping W z).
Proof.
  unfold in_range, wrapping, MIN_VALUE, MAX_VALUE.
  pose proof modulus_twice. pose proof half_modulus_pos.
  pose proof (Z.mod_pos_bound (z + half_modulus W) (modulus W)). lia.
Qed.

Lemma wrapping_congruent z : wrapping W z mod modulus W = z mod modulus W.
Proof.
  unfold wrapping. pose proof modulus_twice. pose proof half_modulus_pos.
  rewrite Zminus_mod, Z.mod_mod, <- Zminus_mod by lia. f_equal. lia.
Qed.

(** The reduction to W bits is the specification's wraparound. *)
Lemma sint_wrapping z : sint W z = wrapping W z.
Proof.
  apply in_range_congruent_eq; auto using sint_in_range, wrapping_in_range.
  now rewrite sint_congruent, wrapping_congruent.
Qed.

(** *** Truncating division *)

Lemma quot_in_range x y :
  in_range W x -> y <> 0 -> ~ (x = MIN_VALUE W /\ y = -1) ->
  in_range W (Z.quot x y).
Proof.
  unfold in_range, MIN_VALUE, MAX_VALUE. pose proof half_modulus_pos.
  intros Hx Hy Hov.
  pose proof (Z.quot_rem' x y) as E.
  pose proof (Z.rem_bound_abs x y Hy) as B.
  destruct (Z.eq_dec y (-1)) as [->|Hy1].
  - change (-1) with (- (1)). rewrite Z.quot_opp_r, Z.quot_1_r by lia. lia.
  - destruct (Z.eq_dec y 1) as [->|Hy2]; [rewrite Z.quot_1_r; lia|].
    destruct (Z.eq_dec x 0) as [->|Hx0]; [rewrite Z.quot_0_l; lia|].
    assert (Z.abs (Z.quot x y) < Z.abs x) as A.
    { rewrite <- Z.quot_abs by lia. apply Z.quot_lt; lia. }
    lia.
Qed.

Lemma rem_in_range x y : in_range W x -> y <> 0 -> in_range W (Z.rem x y).
Proof.
  unfold in_range, MIN_VALUE, MAX_VALUE. intros Hx Hy.
  assert (Z.abs (Z.rem x y) <= Z.abs x) as A.
  { rewrite <- Z.rem_abs by lia.
    destruct (Z.eq_dec x 0) as [->|]; [rewrite Z.rem_0_l; lia|].
    apply Z.rem_le; lia. }
  destruct (Z.le_ge_cases 0 x) as [Hs|Hs].
  - pose proof (Z.rem_nonneg x y Hy Hs). lia.
  - pose proof (Z.rem_nonpos x y Hy Hs). lia.
Qed.

(** The remainder takes the sign of the dividend, or is zero. *)
Lemma rem_sign_dividend x y :
  y <> 0 -> Z.rem x y = 0 \/ Z.sgn (Z.rem x y) = Z.sgn x.
Proof.
  intros Hy. destruct (Z.eq_dec (Z.rem x y) 0); [now left|right].
  now apply Z.rem_sign_nz.
Qed.

Lemma division_defined_spec x y :
  division_defined W x y = true <-> y <> 0 /\ ~ (x = MIN_VALUE W /\ y = -1).
Proof.
  unfold division_defined.
  destruct (Z.eqb_spec y 0), (Z.eqb_spec x (MIN_VALUE W)), (Z.eqb_spec y (-1));
    simpl; split; try discriminate; try tauto; intros [? ?]; try tauto; lia.
Qed.

Lemma op_defined_spec o x y :
  op_defined o W x y = true <->
  (is_division o = true -> y <> 0 /\ ~ (x = MIN_VALUE W /\ y = -1)).
Proof.
  unfold op_defined. destruct (is_division o).
  - rewrite division_defined_spec. tauto.
  - split; [discriminate|reflexivity].
Qed.

Lemma op_defined_not_division o x y :
  is_division o = false -> op_defined o W x y = true.
Proof. unfold op_defined. now intros ->. Qed.

Lemma partial_op_defined o x y :
  op_defined o W x y = true -> partial_op o W x y = Some (machine_op o W x y).
Proof. unfold partial_op. now intros ->. Qed.

Lemma partial_op_undefined o x y :
  op_defined o W x y = false -> partial_op o W x y = None.
Proof. unfold partial_op. now intros ->. Qed.

Lemma machine_op_wrapping o x y :
  is_division o = false ->
  machine_op o W x y = wrapping W (exact o x y).
Proof. destruct o; simpl; intros; try discriminate; apply sint_wrapping. Qed.

(** The operator of each kernel refines the specification's table. *)
Lemma machine_op_spec_value o x y :
  machine_op o W x y = spec_value o W x y.
Proof. destruct o; simpl; try apply sint_wrapping; reflexivity. Qed.
End Arith.

(** ** The loop *)

(** The counter is an [int]; below an [int] bound its increment is exact. *)
Lemma counter_increment_exact i len :
  in_range W32 len -> 0 <= i < len -> sint W32 (i + 1) = i + 1.
Proof.
  intros Hlen Hi. apply sint_id.
  unfold in_range, MIN_VALUE, MAX_VALUE in *.
  pose proof (half_modulus_pos W32). lia.
Qed.

(** The count handed to [for_from] is exactly what the guard allows: the
    loop obeys the equation of [for (; i < len; i++)]. *)
Lemma for_from_unfold body i len m :
  for_from (Z.to_nat (len - i)) body i len m =
  if i <? len
  then m' ← body i m; for_from (Z.to_nat (len - (i + 1))) body (i + 1) len m'
  else Some m.
Proof.
  destruct (Z.ltb_spec i len) as [Hlt|Hge].
  - replace (Z.to_nat (len - i)) with (S (Z.to_nat (len - (i + 1)))) by lia.
    simpl. destruct (Z.ltb_spec i len); [reflexivity|lia].
  - replace (Z.to_nat (len - i)) with O by lia. reflexivity.
Qed.

(** A loop whose guard fails at entry runs its body not even once. *)
Lemma for_loop_no_iteration body len m : len <= 0 -> for_loop len body m = Some m.
Proof.
  intros Hlen. unfold for_loop.
  replace (Z.to_nat len) with O by lia. reflexivity.
Qed.

(** A loop that is entered starts with its body at index 0. *)
Lemma for_loop_first_round body len m :
  0 < len -> body 0 m = None -> for_loop len body m = None.
Proof.
  intros Hlen Hbody. unfold for_loop.
  replace (Z.to_nat len) with (S (Z.to_nat (len - 1))) by lia.
  simpl. destruct (Z.ltb_spec 0 len); [|lia]. now rewrite Hbody.
Qed.

Lemma kernel_elementwise o W a b result len m :
  kernel o W a b result len m =
  for_loop len (elementwise (partial_op o W) a b result) m.
Proof. destruct o, W; reflexivity. Qed.

Lemma insert_is_Some (m : mem) k v p :
  is_Some (m !! k) -> (is_Some (<[k := v]> m !! p) <-> is_Some (m !! p)).
Proof.
  intros Hk. destruct (decide (k = p)) as [->|Hne].
  - rewrite lookup_insert_eq. split; eauto.
  - now rewrite lookup_insert_ne.
Qed.

Section Loop.
Variable g : Z -> Z -> option Z.
Variables a b result len : Z.

Lemma elementwise_step i (m : mem) x v :
  m !! (a + i) = Some x -> g x b = Some v -> is_Some (m !! (result + i)) ->
  elementwise g a b result i m = Some (<[result + i := v]> m).
Proof.
  intros Ha Hg [y Hr]. unfold elementwise, load, store.
  rewrite Ha. simpl. rewrite Hg. simpl. now rewrite Hr.
Qed.

Lemma elementwise_inv i (m m1 : mem) :
  elementwise g a b result i m = Some m1 ->
  exists x v, m !! (a + i) = Some x /\ g x b = Some v /\
              is_Some (m !! (result + i)) /\
              m1 = <[result + i := v]> m.
Proof.
  unfold elementwise, load, store. intros H.
  destruct (m !! (a + i)) as [x|] eqn:Hx; [|discriminate]. simpl in H.
  destruct (g x b) as [v|] eqn:Hv; [|discriminate]. simpl in H.
  destruct (m !! (result + i)) as [y|] eqn:Hr; [|discriminate].
  injection H as <-. exists x, v.
  split; [reflexivity|]. split; [exact Hv|]. split; [eauto|reflexivity].
Qed.

(** What a run that returns has done to the memory: it has changed only
    [result[i..len)], and has allocated and freed nothing. *)
Lemma for_from_returned n : forall i (m m' : mem),
  for_from n (elementwise g a b result) i len m = Some m' ->
  (forall p, ~ (result + i <= p < result + len) -> m' !! p = m !! p) /\
  (forall p, is_Some (m' !! p) <-> is_Some (m !! p)).
Proof.
  induction n as [|n IH]; intros i m m' Hrun.
  - injection Hrun as <-. split; reflexivity.
  - simpl in Hrun. destruct (Z.ltb_spec i len) as [Hlt|Hge].
    2:{ injection Hrun as <-. split; reflexivity. }
    destruct (elementwise g a b result i m) as [m1|] eqn:Hbody;
      [|discriminate].
    simpl in Hrun.
    destruct (elementwise_inv _ _ _ Hbody) as (x & v & Hx & Hv & Hr & ->).
    destruct (IH _ _ _ Hrun) as [Hframe Hdom]. split.
    + intros p Hp. rewrite Hframe by lia. apply lookup_insert_ne. lia.
    + intros p. rewrite Hdom. now apply insert_is_Some.
Qed.

(** The invariant of the loop, from round [i] on, when no cell is
    overwritten before it is read and the operator has a result on every
    element still to be read: the loop returns, and every [result[j]] is
    the operator's value on the [a[j]] found at entry. *)
Lemma for_from_elementwise n : forall i (m : mem),
  Z.of_nat n = len - i -> 0 <= i ->
  no_clobber a result len ->
  (forall j, i <= j < len -> is_Some (m !! (a + j))) ->
  (forall j, i <= j < len -> is_Some (m !! (result + j))) ->
  (forall j x, i <= j < len -> m !! (a + j) = Some x -> is_Some (g x b)) ->
  exists m' : mem,
    for_from n (elementwise g a b result) i len m = Some m' /\
    forall j, i <= j < len ->
      m' !! (result + j) = m !! (a + j) ≫= (fun x => g x b).
Proof.
  induction n as [|n IH]; intros i m Hn Hi Hnc Ha Hr Hdef.
  - exists m. split; [reflexivity|]. intros j Hj. lia.
  - simpl. destruct (Z.ltb_spec i len) as [Hlt|Hge]; [|lia].
    destruct (Ha i ltac:(lia)) as [x Hx].
    destruct (Hdef i x ltac:(lia) Hx) as [v Hv].
    assert (is_Some (m !! (result + i))) as Hri by (apply Hr; lia).
    rewrite (elementwise_step i m x v Hx Hv Hri). simpl.
    set (m1 := <[result + i := v]> m).
    assert (forall j, i + 1 <= j < len -> m1 !! (a + j) = m !! (a + j))
      as Hkeep.
    { intros j Hj. unfold m1. apply lookup_insert_ne.
      unfold no_clobber in Hnc. lia. }
    destruct (IH (i + 1) m1) as (m' & Hrun & Hval).
    + lia.
    + lia.
    + exact Hnc.
    + intros j Hj. apply insert_is_Some; auto. apply Ha. lia.
    + intros j Hj. apply insert_is_Some; auto. apply Hr. lia.
    + intros j y Hj Hy. rewrite Hkeep in Hy by assumption.
      apply (Hdef j y); [lia|exact Hy].
    + exists m'. split; [exact Hrun|].
      intros j Hj. destruct (Z.eq_dec j i) as [->|Hne].
      * destruct (for_from_returned _ _ _ _ Hrun) as [Hframe _].
        rewrite Hframe by lia. unfold m1.
        rewrite lookup_insert_eq, Hx. simpl. now rewrite Hv.
      * rewrite (Hval j) by lia. now rewrite Hkeep by lia.
Qed.

(** An operator that has a result on every element lets the loop return
    however the buffers overlap. *)
Lemma for_from_total n : forall i (m : mem),
  (forall x, is_Some (g x b)) ->
  (forall j, i <= j < len -> is_Some (m !! (a + j))) ->
  (forall j, i <= j < len -> is_Some (m !! (result + j))) ->
  is_Some (for_from n (elementwise g a b result) i len m).
Proof.
  induction n as [|n IH]; intros i m Hg Ha Hr; [simpl; eauto|].
  simpl. destruct (Z.ltb_spec i len) as [Hlt|Hge]; [|eauto].
  destruct (Ha i ltac:(lia)) as [x Hx]. destruct (Hg x) as [v Hv].
  assert (is_Some (m !! (result + i))) as Hri by (apply Hr; lia).
  rewrite (elementwise_step i m x v Hx Hv Hri). simpl.
  apply IH; auto.
  - intros j Hj. apply insert_is_Some; auto. apply Ha. lia.
  - intros j Hj. apply insert_is_Some; auto. apply Hr. lia.
Qed.
End Loop.

(** What a kernel call that returns has done to the memory. *)
Lemma kernel_returned o W a b result len (m m' : mem) :
  kernel o W a b result len m = Some m' ->
  (forall p, ~ (result <= p < result + len) -> m' !! p = m !! p) /\
  (forall p, is_Some (m' !! p) <-> is_Some (m !! p)).
Proof.
  rewrite kernel_elementwise. unfold for_loop. intros Hrun.
  destruct (for_from_returned _ _ _ _ _ _ _ _ _ Hrun) as [Hframe Hdom].
  split; [|exact Hdom]. intros p Hp. apply Hframe. lia.
Qed.

(** Every kernel, on allocated buffers where [result] does not point into
    the part of [a] still to be read and the operator has a result on
    every element: it returns; only [result[0..len)] changes; and
    [result[j] = a[j] OP b]. *)
Lemma kernel_run o W a b result len (m : mem) :
  allocated m a len -> allocated m result len ->
  no_clobber a result len ->
  (forall j x, 0 <= j < len -> m !! (a + j) = Some x ->
     op_defined o W x b = true) ->
  exists m' : mem,
    kernel o W a b result len m = Some m' /\
    (forall p, ~ (result <= p < result + len) -> m' !! p = m !! p) /\
    (forall p, is_Some (m' !! p) <-> is_Some (m !! p)) /\
    (forall j, 0 <= j < len ->
       m' !! (result + j) = (fun x => machine_op o W x b) <$> m !! (a + j)).
Proof.
  intros Ha Hr Hnc Hdef.
  destruct (Z.le_gt_cases len 0) as [Hle|Hgt].
  - exists m. rewrite kernel_elementwise, for_loop_no_iteration by assumption.
    repeat split; auto. intros j Hj. lia.
  - destruct (for_from_elementwise (partial_op o W) a b result len
                (Z.to_nat len) 0 m) as (m' & Hrun & Hval); try lia; auto.
    { intros j x Hj Hx. rewrite partial_op_defined by eauto. eauto. }
    assert (kernel o W a b result len m = Some m') as Hk
      by (rewrite kernel_elementwise; exact Hrun).
    destruct (kernel_returned _ _ _ _ _ _ _ _ Hk) as [Hframe Hdom].
    exists m'. repeat (split; [assumption|]).
    intros j Hj. rewrite (Hval j Hj).
    destruct (m !! (a + j)) as [x|] eqn:Hx; [|reflexivity]. simpl.
    apply partial_op_defined. eauto.
Qed.

Lemma alias_no_clobber a result len : aliased a result -> no_clobber a result len.
Proof. unfold aliased, no_clobber. lia. Qed.

Lemma disjoint_no_clobber a result len :
  disjoint a result len -> no_clobber a result len.
Proof. unfold disjoint, no_clobber. lia. Qed.

(** Both layouts the specification allows are safe for the loop. *)
Lemma layout_no_clobber a result len :
  aliased a result \/ disjoint a result len -> no_clobber a result len.
Proof. intros [H|H]; auto using alias_no_clobber, disjoint_no_clobber. Qed.

(** What the caller's obligation gives for each element. *)
Lemma division_precondition_defined o W a b len (m : mem) :
  division_precondition o W a b len m ->
  forall j x, 0 <= j < len -> m !! (a + j) = Some x ->
    op_defined o W x b = true.
Proof.
  intros Hpre j x Hj Hx. apply op_defined_spec. intros Hd.
  destruct (Hpre Hd) as [Hb Hov]. split; [exact Hb|].
  intros [-> Hb1]. apply (Hov j Hj). auto.
Qed.

Lemma not_division_precondition o W a b len (m : mem) :
  is_division o = false -> division_precondition o W a b len m.
Proof. intros Ho Hd. congruence. Qed.

(** * The kernels against their specification *)

Lemma example_mem_allocated x0 x1 p n :
  0 <= p -> p + n <= 4 -> allocated (example_mem x0 x1) p n.
Proof.
  intros Hp Hn i Hi. unfold example_mem.
  assert (p + i = 0 \/ p + i = 1 \/ p + i = 2 \/ p + i = 3) as E by lia.
  destruct E as [-> | [-> | [-> | ->]]]; vm_compute; eauto.
Qed.

(** C1. For every operation and width, on an input buffer [a] of [len]
    elements and a scalar [b] (elements and scalar of the width, [result]
    either [a] itself or disjoint from it, and for divide and modulo
    [b <> 0] and no element [MIN_VALUE] with [b = -1]), the kernel returns
    having written [result[i] = a[i] OP b] for every [i] in [0, len), and
    no cell outside [result[0..len)] is changed. *)
Theorem kernel_writes_each_index o W a b result len (m : mem) :
  allocated m a len -> allocated m result len ->
  aliased a result \/ disjoint a result len ->
  (forall i x, 0 <= i < len -> m !! (a + i) = Some x -> in_range W x) ->
  (is_division o = true ->
   b <> 0 /\ forall i, 0 <= i < len ->
               ~ (m !! (a + i) = Some (MIN_VALUE W) /\ b = -1)) ->
  exists m' : mem,
    kernel o W a b result len m = Some m' /\
    (forall i, 0 <= i < len ->
       exists x, m !! (a + i) = Some x /\
                 m' !! (result + i) = Some (spec_value o W x b)) /\
    (forall p, ~ (result <= p < result + len) -> m' !! p = m !! p).
Proof.
  intros Ha Hr Hbuf Hrange Hpre.
  destruct (kernel_run o W a b result len m Ha Hr)
    as (m' & Hrun & Hframe & _ & Hval).
  { now apply layout_no_clobber. }
  { now apply division_precondition_defined. }
  exists m'. split; [exact Hrun|]. split; [|exact Hframe].
  intros i Hi. destruct (Ha i Hi) as [x Hx]. exists x. split; [exact Hx|].
  rewrite Hval, Hx by assumption. simpl. f_equal.
  apply machine_op_spec_value.
Qed.

Lemma kernel_writes_each_index_witness :
  exists m' : mem,
    kernel Divide W32 0 (-2) 2 2 (example_mem 7 (-9)) = Some m' /\
    (forall i, 0 <= i < 2 ->
       exists x, example_mem 7 (-9) !! (0 + i) = Some x /\
                 m' !! (2 + i) = Some (spec_value Divide W32 x (-2))) /\
    (forall p, ~ (2 <= p < 2 + 2) -> m' !! p = example_mem 7 (-9) !! p).
Proof.
  apply (kernel_writes_each_index Divide W32 0 (-2) 2 2 (example_mem 7 (-9))).
  - apply example_mem_allocated; lia.
  - apply example_mem_allocated; lia.
  - right. unfold disjoint. lia.
  - intros i x Hi Hx. assert (i = 0 \/ i = 1) as [-> | ->] by lia;
      vm_compute in Hx; injection Hx as <-; split; discriminate.
  - intros _. split; [lia|]. intros i Hi [_ Hb]. discriminate Hb.
Defined.

(** C2. For both widths and any element and scalar, the add, subtract and
    multiply kernels return with [result[i]] the two's-complement
    wraparound of the exact result: the value of the signed range congruent
    to it modulo [2^W], which is the specification's [wrapping] of it.
    Overflow is no failure: the kernel returns whatever the operands. *)
Theorem add_sub_mul_wrap_around o W a b result len (m : mem) :
  is_division o = false ->
  allocated m a len -> allocated m result len ->
  aliased a result \/ disjoint a result len ->
  exists m' : mem,
    kernel o W a b result len m = Some m' /\
    forall i, 0 <= i < len ->
      exists x v, m !! (a + i) = Some x /\ m' !! (result + i) = Some v /\
        in_range W v /\
        v mod modulus W = exact o x b mod modulus W /\
        v = wrapping W (exact o x b).
Proof.
  intros Ho Ha Hr Hbuf.
  destruct (kernel_run o W a b result len m Ha Hr)
    as (m' & Hrun & _ & _ & Hval).
  { now apply layout_no_clobber. }
  { intros j x _ _. now apply op_defined_not_division. }
  exists m'. split; [exact Hrun|].
  intros i Hi. destruct (Ha i Hi) as [x Hx].
  exists x, (machine_op o W x b). split; [exact Hx|]. split.
  - now rewrite Hval, Hx.
  - rewrite machine_op_wrapping by assumption.
    auto using wrapping_in_range, wrapping_congruent.
Qed.

Lemma add_sub_mul_wrap_around_witness :
  exists m' : mem,
    kernel Add W64 0 1 0 2 (example_mem (MAX_VALUE W64) 5) = Some m' /\
    forall i, 0 <= i < 2 ->
      exists x v, example_mem (MAX_VALUE W64) 5 !! (0 + i) = Some x /\
        m' !! (0 + i) = Some v /\
        in_range W64 v /\
        v mod modulus W64 = exact Add x 1 mod modulus W64 /\
        v = wrapping W64 (exact Add x 1).
Proof.
  apply (add_sub_mul_wrap_around Add W64 0 1 0 2 (example_mem (MAX_VALUE W64) 5)).
  - reflexivity.
  - apply example_mem_allocated; lia.
  - apply example_mem_allocated; lia.
  - left. reflexivity.
Defined.

Example add_overflow_wraps :
  kernel Add W64 0 1 0 2 (example_mem (MAX_VALUE W64) 5)
  = Some (example_mem (MIN_VALUE W64) 6).
Proof. vm_compute. reflexivity. Qed.


(** ** Divide and modulo at the edges *)

(** If a run has returned, the operator had a result on every element it
    was given (no cell being overwritten before it is read). *)
Lemma for_from_reads_defined g a b result len n : forall i (m m' : mem),
  Z.of_nat n = len - i -> 0 <= i ->
  no_clobber a result len ->
  for_from n (elementwise g a b result) i len m = Some m' ->
  forall j x, i <= j < len -> m !! (a + j) = Some x -> is_Some (g x b).
Proof.
  induction n as [|n IH]; intros i m m' Hn Hi Hnc Hrun j x Hj Hx; [lia|].
  simpl in Hrun. destruct (Z.ltb_spec i len) as [Hlt|Hge]; [|lia].
  destruct (elementwise g a b result i m) as [m1|] eqn:Hbody; [|discriminate].
  simpl in Hrun.
  destruct (elementwise_inv _ _ _ _ _ _ _ Hbody) as (x0 & v & Hx0 & Hv & _ & ->).
  destruct (Z.eq_dec j i) as [->|Hne].
  - rewrite Hx in Hx0. injection Hx0 as <-. eauto.
  - apply (IH (i + 1) _ m' ltac:(lia) ltac:(lia) Hnc Hrun j x); [lia|].
    rewrite lookup_insert_ne; [exact Hx|].
    unfold no_clobber in Hnc. lia.
Qed.

Lemma kernel_reads_defined o W a b result len (m m' : mem) :
  no_clobber a result len ->
  kernel o W a b result len m = Some m' ->
  forall j x, 0 <= j < len -> m !! (a + j) = Some x ->
    op_defined o W x b = true.
Proof.
  intros Hnc Hrun j x Hj Hx.
  rewrite kernel_elementwise in Hrun. unfold for_loop in Hrun.
  assert (Z.of_nat (Z.to_nat len) = len - 0) as Hn by lia.
  destruct (for_from_reads_defined (partial_op o W) a b result len
              (Z.to_nat len) 0 m m' Hn (Z.le_refl 0) Hnc Hrun j x Hj Hx)
    as [v Hv].
  unfold partial_op in Hv.
  destruct (op_defined o W x b); [reflexivity|discriminate].
Qed.

Lemma kernel_no_iteration o W a b result len (m : mem) :
  len <= 0 -> kernel o W a b result len m = Some m.
Proof.
  intros Hlen. rewrite kernel_elementwise. now apply for_loop_no_iteration.
Qed.

(** C3, as stated, fails: called with [b = 0] and [len = 0] the divide and
    modulo kernels do not fail, they return normally. *)
Lemma zero_divisor_counterexample :
  int64_div_scalar 0 0 2 0 (example_mem 5 6) = Some (example_mem 5 6) /\
  int32_div_scalar 0 0 2 0 (example_mem 5 6) = Some (example_mem 5 6) /\
  int64_mod_scalar 0 0 2 0 (example_mem 5 6) = Some (example_mem 5 6) /\
  int32_mod_scalar 0 0 2 0 (example_mem 5 6) = Some (example_mem 5 6).
Proof. repeat split; reflexivity. Qed.

(** C3, amended. The divide and modulo kernels have no divisor check and
    no error to report.  Called with [b = 0] and [len <= 0] they return
    normally and write nothing.  With [b = 0] the first round of the loop,
    run on the memory found at entry, divides [a[0]] by zero before it
    stores anything; the source defines no result for that division, so a
    call with [len > 0] has no defined outcome. *)
Theorem zero_divisor_unchecked o W a result len (m : mem) :
  is_division o = true ->
  (len <= 0 -> kernel o W a 0 result len m = Some m) /\
  elementwise (partial_op o W) a 0 result 0 m = None /\
  (0 < len -> kernel o W a 0 result len m = None).
Proof.
  intros Ho.
  assert (elementwise (partial_op o W) a 0 result 0 m = None) as Hfirst.
  { unfold elementwise, load.
    destruct (m !! (a + 0)) as [x|]; [|reflexivity]. simpl.
    rewrite partial_op_undefined; [reflexivity|].
    unfold op_defined. rewrite Ho. reflexivity. }
  split; [|split].
  - intros Hlen. now apply kernel_no_iteration.
  - exact Hfirst.
  - intros Hlen. rewrite kernel_elementwise.
    now apply for_loop_first_round.
Qed.

Lemma zero_divisor_unchecked_witness :
  kernel Modulo W32 0 0 2 0 (example_mem 5 6) = Some (example_mem 5 6) /\
  elementwise (partial_op Divide W64) 0 0 2 0 (example_mem 5 6) = None /\
  kernel Divide W64 0 0 2 2 (example_mem 5 6) = None.
Proof.
  destruct (zero_divisor_unchecked Modulo W32 0 2 0 (example_mem 5 6)
              eq_refl) as (Hempty & _ & _).
  destruct (zero_divisor_unchecked Divide W64 0 2 2 (example_mem 5 6)
              eq_refl) as (_ & Hfirst & Hcall).
  split; [apply Hempty; lia|]. split; [exact Hfirst|apply Hcall; lia].
Defined.

(** C4, as stated, fails: with [a[0] = MIN_VALUE] and [b = -1], on
    allocated buffers, the divide and modulo kernels of either width
    evaluate a division for which the source defines no result, so the
    call has no defined outcome.  They report no overflow and substitute
    nothing: they return [void] and hold no test. *)
Lemma min_minus_one_counterexample :
  load (example_mem (MIN_VALUE W64) 6) 0 = Some (MIN_VALUE W64) /\
  is_Some (example_mem (MIN_VALUE W64) 6 !! 2) /\
  int64_div_scalar 0 (-1) 2 1 (example_mem (MIN_VALUE W64) 6) = None /\
  int64_mod_scalar 0 (-1) 2 1 (example_mem (MIN_VALUE W64) 6) = None /\
  int32_div_scalar 0 (-1) 2 1 (example_mem (MIN_VALUE W32) 6) = None /\
  int32_mod_scalar 0 (-1) 2 1 (example_mem (MIN_VALUE W32) 6) = None.
Proof. vm_compute. repeat split. eauto. Qed.

Example next_to_min_by_minus_one :
  int32_div_scalar 0 (-1) 2 1 (example_mem (MIN_VALUE W32 + 1) 6)
    = Some (list_to_map
              [(0, MIN_VALUE W32 + 1); (1, 6); (2, MAX_VALUE W32); (3, 88)]).
Proof. vm_compute. reflexivity. Qed.

(** C4, amended. The divide and modulo kernels have no overflow check, no
    error to report and no substitution policy.  If some [a[i]] with [i]
    in [0, len) is [MIN_VALUE] and [b = -1], the call evaluates
    [MIN_VALUE / -1] (or [% -1]), for which the source defines no result:
    the call has no defined outcome. *)
Theorem min_minus_one_unchecked o W a result len (m : mem) i :
  is_division o = true ->
  aliased a result \/ disjoint a result len ->
  0 <= i < len -> m !! (a + i) = Some (MIN_VALUE W) ->
  kernel o W a (-1) result len m = None.
Proof.
  intros Ho Hbuf Hi Hmin.
  destruct (kernel o W a (-1) result len m) as [m'|] eqn:Hrun; [|reflexivity].
  pose proof (kernel_reads_defined o W a (-1) result len m m'
                (layout_no_clobber _ _ _ Hbuf) Hrun i _ Hi Hmin) as Hdef.
  destruct (proj1 (op_defined_spec W o _ _) Hdef Ho) as [_ Hov].
  exfalso. apply Hov. split; reflexivity.
Qed.

Lemma min_minus_one_unchecked_witness :
  kernel Divide W32 0 (-1) 2 2 (example_mem 6 (MIN_VALUE W32)) = None.
Proof.
  apply (min_minus_one_unchecked Divide W32 0 2 2
           (example_mem 6 (MIN_VALUE W32)) 1).
  - reflexivity.
  - right. unfold disjoint. lia.
  - lia.
  - reflexivity.
Defined.

(** C5. For both widths and a call whose divisions all have a result (a
    scalar [b <> 0], and no element [MIN_VALUE] when [b = -1]), the divide
    kernel leaves in [result[i]] the truncating quotient [q] of [a[i]] by
    [b] and the modulo kernel the remainder [r] of that division:
    [a[i] = b * q + r] with [|r| < |b|], and [r] is zero or has the sign
    of [a[i]].  So [-7 % 3] is [-1]. *)
Theorem divide_truncates_modulo_follows_dividend W a b result len (m : mem) :
  allocated m a len -> allocated m result len ->
  aliased a result \/ disjoint a result len ->
  b <> 0 ->
  (forall i, 0 <= i < len ->
     ~ (m !! (a + i) = Some (MIN_VALUE W) /\ b = -1)) ->
  exists mq mr : mem,
    kernel Divide W a b result len m = Some mq /\
    kernel Modulo W a b result len m = Some mr /\
    forall i x, 0 <= i < len -> m !! (a + i) = Some x ->
      mq !! (result + i) = Some (Z.quot x b) /\
      mr !! (result + i) = Some (Z.rem x b) /\
      x = b * Z.quot x b + Z.rem x b /\
      Z.abs (Z.rem x b) < Z.abs b /\
      (Z.rem x b = 0 \/ Z.sgn (Z.rem x b) = Z.sgn x).
Proof.
  intros Ha Hr Hbuf Hb Hmin.
  assert (no_clobber a result len) as Hnc by now apply layout_no_clobber.
  assert (forall o, division_precondition o W a b len m) as Hpre
    by (intros o _; split; assumption).
  destruct (kernel_run Divide W a b result len m Ha Hr Hnc
              (division_precondition_defined _ _ _ _ _ _ (Hpre Divide)))
    as (mq & Hq & _ & _ & Hqv).
  destruct (kernel_run Modulo W a b result len m Ha Hr Hnc
              (division_precondition_defined _ _ _ _ _ _ (Hpre Modulo)))
    as (mr & Hm & _ & _ & Hmv).
  exists mq, mr. split; [exact Hq|]. split; [exact Hm|].
  intros i x Hi Hx.
  rewrite Hqv, Hmv, Hx by assumption. simpl.
  repeat split.
  - apply Z.quot_rem'.
  - now apply Z.rem_bound_abs.
  - now apply rem_sign_dividend.
Qed.

Lemma divide_truncates_modulo_follows_dividend_witness :
  exists mq mr : mem,
    kernel Divide W32 0 3 2 2 (example_mem (-7) 7) = Some mq /\
    kernel Modulo W32 0 3 2 2 (example_mem (-7) 7) = Some mr /\
    forall i x, 0 <= i < 2 -> example_mem (-7) 7 !! (0 + i) = Some x ->
      mq !! (2 + i) = Some (Z.quot x 3) /\
      mr !! (2 + i) = Some (Z.rem x 3) /\
      x = 3 * Z.quot x 3 + Z.rem x 3 /\
      Z.abs (Z.rem x 3) < Z.abs 3 /\
      (Z.rem x 3 = 0 \/ Z.sgn (Z.rem x 3) = Z.sgn x).
Proof.
  apply (divide_truncates_modulo_follows_dividend W32 0 3 2 2
           (example_mem (-7) 7)).
  - apply example_mem_allocated; lia.
  - apply example_mem_allocated; lia.
  - right. unfold disjoint. lia.
  - discriminate.
  - intros i Hi [_ Hb]. discriminate Hb.
Defined.

Example modulo_minus_seven_by_three :
  int32_mod_scalar 0 3 2 2 (example_mem (-7) 7)
    = Some (list_to_map [(0, -7); (1, 7); (2, -1); (3, 1)]) /\
  int64_mod_scalar 0 3 2 2 (example_mem (-7) 7)
    = Some (list_to_map [(0, -7); (1, 7); (2, -1); (3, 1)]) /\
  int32_div_scalar 0 3 2 2 (example_mem (-7) 7)
    = Some (list_to_map [(0, -7); (1, 7); (2, -2); (3, 2)]).
Proof. vm_compute. repeat split. Qed.

(** ** Algebra of the kernels *)

Lemma sub_add_cancel_w W x b : sub_w W (add_w W x b) b = sint W x.
Proof.
  unfold sub_w, add_w. apply sint_congr_arg.
  rewrite Zminus_mod, sint_congruent, <- Zminus_mod. f_equal. lia.
Qed.

(** One kernel into [tmp], a second from [tmp] into [out], where both
    operators have a result on every element they are given. *)
Lemma kernel_chain o1 o2 W a b1 tmp b2 out len (m : mem) :
  allocated m a len -> allocated m tmp len -> allocated m out len ->
  no_clobber a tmp len -> no_clobber tmp out len ->
  (forall i x, 0 <= i < len -> m !! (a + i) = Some x ->
     op_defined o1 W x b1 = true /\
     op_defined o2 W (machine_op o1 W x b1) b2 = true) ->
  exists m1 m2 : mem,
    kernel o1 W a b1 tmp len m = Some m1 /\
    kernel o2 W tmp b2 out len m1 = Some m2 /\
    forall i, 0 <= i < len ->
      m2 !! (out + i)
      = (fun x => machine_op o2 W (machine_op o1 W x b1) b2) <$> m !! (a + i).
Proof.
  intros Ha Ht Ho Hat Hto Hdef.
  destruct (kernel_run o1 W a b1 tmp len m Ha Ht Hat)
    as (m1 & Hrun1 & _ & Hdom1 & Hval1).
  { intros j x Hj Hx. now apply (Hdef j x). }
  assert (allocated m1 tmp len) as Ht1 by (intros i Hi; apply Hdom1; auto).
  assert (allocated m1 out len) as Ho1 by (intros i Hi; apply Hdom1; auto).
  destruct (kernel_run o2 W tmp b2 out len m1 Ht1 Ho1 Hto)
    as (m2 & Hrun2 & _ & _ & Hval2).
  { intros j y Hj Hy. rewrite Hval1 in Hy by assumption.
    destruct (m !! (a + j)) as [x|] eqn:Hx; [|discriminate].
    injection Hy as <-. now apply (Hdef j x). }
  exists m1, m2. split; [exact Hrun1|]. split; [exact Hrun2|].
  intros i Hi. rewrite Hval2, Hval1 by auto.
  destruct (m !! (a + i)); reflexivity.
Qed.

(** C6. Adding [b] into [tmp] and then subtracting [b] from [tmp] into
    [out] gives back the input, [out[i] = a[i]], whenever neither the sum
    [a[i] + b] nor the difference [(a[i] + b) - b] overflows the width. *)
Theorem add_then_subtract_round_trip W a b tmp out len (m : mem) :
  allocated m a len -> allocated m tmp len -> allocated m out len ->
  aliased a tmp \/ disjoint a tmp len ->
  aliased tmp out \/ disjoint tmp out len ->
  (forall i x, 0 <= i < len -> m !! (a + i) = Some x ->
     in_range W (x + b) /\ in_range W ((x + b) - b)) ->
  exists m1 m2 : mem,
    kernel Add W a b tmp len m = Some m1 /\
    kernel Subtract W tmp b out len m1 = Some m2 /\
    forall i, 0 <= i < len -> m2 !! (out + i) = m !! (a + i).
Proof.
  intros Ha Ht Ho Hat Hto Hnov.
  destruct (kernel_chain Add Subtract W a b tmp b out len m Ha Ht Ho)
    as (m1 & m2 & Hrun1 & Hrun2 & Hval); auto using layout_no_clobber.
  exists m1, m2. split; [exact Hrun1|]. split; [exact Hrun2|].
  intros i Hi. destruct (Ha i Hi) as [x Hx].
  rewrite Hval, Hx by assumption. simpl. f_equal.
  rewrite sub_add_cancel_w. apply sint_id.
  destruct (Hnov i x Hi Hx) as [_ Hback].
  replace (x + b - b) with x in Hback by lia. exact Hback.
Qed.

Lemma add_then_subtract_round_trip_witness :
  exists m1 m2 : mem,
    kernel Add W32 0 100 2 2 (example_mem 5 (-6)) = Some m1 /\
    kernel Subtract W32 2 100 2 2 m1 = Some m2 /\
    forall i, 0 <= i < 2 -> m2 !! (2 + i) = example_mem 5 (-6) !! (0 + i).
Proof.
  apply (add_then_subtract_round_trip W32 0 100 2 2 2 (example_mem 5 (-6))).
  - apply example_mem_allocated; lia.
  - apply example_mem_allocated; lia.
  - apply example_mem_allocated; lia.
  - right. unfold disjoint. lia.
  - left. reflexivity.
  - intros i x Hi Hx. assert (i = 0 \/ i = 1) as [-> | ->] by lia;
      vm_compute in Hx; injection Hx as <-; repeat split; discriminate.
Defined.

(** C8. For a call whose divisions all have a result, running a kernel in
    place ([result] is [a]) leaves in [a[0..len)] the values that running
    it into a disjoint [result] leaves in [result[0..len)]: position [i]
    of the output depends on position [i] of the input only. *)
Theorem in_place_matches_out_of_place o W a b result len (m : mem) :
  allocated m a len -> allocated m result len ->
  disjoint a result len ->
  division_precondition o W a b len m ->
  exists m1 m2 : mem,
    kernel o W a b a len m = Some m1 /\
    kernel o W a b result len m = Some m2 /\
    forall i, 0 <= i < len ->
      exists v, m1 !! (a + i) = Some v /\ m2 !! (result + i) = Some v.
Proof.
  intros Ha Hr Hdis Hpre.
  pose proof (division_precondition_defined _ _ _ _ _ _ Hpre) as Hdef.
  destruct (kernel_run o W a b a len m Ha Ha) as (m1 & Hrun1 & _ & _ & Hval1);
    [apply alias_no_clobber; reflexivity|exact Hdef|].
  destruct (kernel_run o W a b result len m Ha Hr)
    as (m2 & Hrun2 & _ & _ & Hval2);
    [now apply disjoint_no_clobber|exact Hdef|].
  exists m1, m2. split; [exact Hrun1|]. split; [exact Hrun2|].
  intros i Hi. destruct (Ha i Hi) as [x Hx].
  exists (machine_op o W x b).
  now rewrite Hval1, Hval2, Hx.
Qed.

Lemma in_place_matches_out_of_place_witness :
  exists m1 m2 : mem,
    kernel Modulo W64 0 4 0 2 (example_mem 9 (-9)) = Some m1 /\
    kernel Modulo W64 0 4 2 2 (example_mem 9 (-9)) = Some m2 /\
    forall i, 0 <= i < 2 ->
      exists v, m1 !! (0 + i) = Some v /\ m2 !! (2 + i) = Some v.
Proof.
  apply (in_place_matches_out_of_place Modulo W64 0 4 2 2 (example_mem 9 (-9))).
  - apply example_mem_allocated; lia.
  - apply example_mem_allocated; lia.
  - unfold disjoint. lia.
  - intros _. split; [discriminate|]. intros i Hi [_ Hb]. discriminate Hb.
Defined.

(** A [result] that points into the part of [a] still to be read is
    neither of the two layouts above, and there the kernel does not compute
    [a[i] + b]: each sum feeds the next. *)
Example overlapping_forward_differs :
  int64_add_scalar 0 1 1 2 (example_mem 10 20)
  = Some (list_to_map [(0, 10); (1, 11); (2, 12); (3, 88)]).
Proof. vm_compute. reflexivity. Qed.

(** C9. Frame: a kernel call that returns has changed no cell outside
    [result[0..len)]; in particular, when [result] is disjoint from [a] the
    input buffer is as it was.  It has allocated and freed no cell.  The
    scalar [b] is passed by value, so there is nothing of it to change.
    And the call does return on allocated buffers, [result] being [a] or
    disjoint from it, when its divisions all have a result. *)
Theorem kernel_frame o W a b result len (m : mem) :
  (forall m' : mem,
     kernel o W a b result len m = Some m' ->
     (forall p, ~ (result <= p < result + len) -> m' !! p = m !! p) /\
     (disjoint a result len ->
      forall i, 0 <= i < len -> m' !! (a + i) = m !! (a + i)) /\
     (forall p, is_Some (m' !! p) <-> is_Some (m !! p))) /\
  (allocated m a len -> allocated m result len ->
   aliased a result \/ disjoint a result len ->
   division_precondition o W a b len m ->
   exists m' : mem, kernel o W a b result len m = Some m').
Proof.
  split.
  - intros m' Hrun.
    destruct (kernel_returned _ _ _ _ _ _ _ _ Hrun) as [Hframe Hdom].
    split; [exact Hframe|]. split; [|exact Hdom].
    intros Hdis i Hi. apply Hframe. unfold disjoint in Hdis. lia.
  - intros Ha Hr Hbuf Hpre.
    destruct (kernel_run o W a b result len m Ha Hr) as (m' & Hrun & _).
    + now apply layout_no_clobber.
    + now apply division_precondition_defined.
    + exists m'. exact Hrun.
Qed.

Lemma kernel_frame_witness :
  exists m' : mem,
    kernel Divide W32 0 3 2 2 (example_mem 4 5) = Some m' /\
    (forall p, ~ (2 <= p < 2 + 2) -> m' !! p = example_mem 4 5 !! p) /\
    (disjoint 0 2 2 ->
     forall i, 0 <= i < 2 -> m' !! (0 + i) = example_mem 4 5 !! (0 + i)) /\
    (forall p, is_Some (m' !! p) <-> is_Some (example_mem 4 5 !! p)).
Proof.
  destruct (kernel_frame Divide W32 0 3 2 2 (example_mem 4 5))
    as [Hframe Hreturns].
  destruct Hreturns as [m' Hrun].
  - apply example_mem_allocated; lia.
  - apply example_mem_allocated; lia.
  - right. unfold disjoint. lia.
  - intros _. split; [discriminate|]. intros i Hi [_ Hb]. discriminate Hb.
  - exists m'. split; [exact Hrun|]. exact (Hframe m' Hrun).
Defined.

(** ** Lengths that run no round *)

(** C7. With [len = 0] every kernel returns normally and leaves the whole
    memory, so every element of the output buffer, as it was: whatever the
    operation, the width, the pointers and the scalar, a zero divisor
    included. *)
Theorem zero_length_is_identity o W a b result (m : mem) :
  kernel o W a b result 0 m = Some m.
Proof. apply kernel_no_iteration. lia. Qed.

Example divide_by_zero_on_empty :
  int64_div_scalar 0 0 2 0 (example_mem 5 6) = Some (example_mem 5 6).
Proof. reflexivity. Qed.

(** C10. A negative [len] makes the guard [0 < len] fail at entry: the loop
    runs its body not once, whatever the body is, and the kernel returns
    normally with the memory untouched, exactly as for [len = 0]. *)
Theorem negative_length_is_zero_length o W a b result len (m : mem) :
  len < 0 ->
  (0 <? len) = false /\
  (forall body, for_loop len body m = Some m) /\
  kernel o W a b result len m = Some m /\
  kernel o W a b result len m = kernel o W a b result 0 m.
Proof.
  intros Hneg.
  assert (kernel o W a b result len m = Some m) as E
    by (apply kernel_no_iteration; lia).
  split; [apply Z.ltb_ge; lia|]. split; [|split].
  - intros body. apply for_loop_no_iteration. lia.
  - exact E.
  - rewrite E. symmetry. apply kernel_no_iteration. lia.
Qed.

Lemma negative_length_is_zero_length_witness :
  (0 <? -3) = false /\
  (forall body, for_loop (-3) body (example_mem 5 6) = Some (example_mem 5 6)) /\
  kernel Divide W32 0 0 2 (-3) (example_mem 5 6) = Some (example_mem 5 6) /\
  kernel Divide W32 0 0 2 (-3) (example_mem 5 6)
    = kernel Divide W32 0 0 2 0 (example_mem 5 6).
Proof.
  apply (negative_length_is_zero_length Divide W32 0 0 2 (-3) (example_mem 5 6)).
  lia.
Defined.


(** * Further properties of the kernels *)

(** ** Layouts beyond "in place or disjoint" *)

(** X1. A [result] that starts at or below [a] is safe even when the two
    buffers overlap: for a call whose divisions all have a result, every
    [result[i]] is [a[i] OP b] for the [a[i]] found at entry, because the
    loop reads cell [a + i] before any later round can write it.  The
    kernels can thus shift a column down in place. *)
Theorem result_below_input_is_safe o W a b result len (m : mem) :
  allocated m a len -> allocated m result len ->
  result <= a ->
  division_precondition o W a b len m ->
  exists m' : mem,
    kernel o W a b result len m = Some m' /\
    forall i, 0 <= i < len ->
      exists x, m !! (a + i) = Some x /\
                m' !! (result + i) = Some (machine_op o W x b).
Proof.
  intros Ha Hr Hle Hpre.
  destruct (kernel_run o W a b result len m Ha Hr)
    as (m' & Hrun & _ & _ & Hval).
  { left. exact Hle. }
  { now apply division_precondition_defined. }
  exists m'. split; [exact Hrun|].
  intros i Hi. destruct (Ha i Hi) as [x Hx]. exists x. split; [exact Hx|].
  now rewrite Hval, Hx.
Qed.

Lemma result_below_input_is_safe_witness :
  exists m' : mem,
    kernel Divide W64 1 10 0 3 (example_mem 5 6) = Some m' /\
    forall i, 0 <= i < 3 ->
      exists x, example_mem 5 6 !! (1 + i) = Some x /\
                m' !! (0 + i) = Some (machine_op Divide W64 x 10).
Proof.
  apply (result_below_input_is_safe Divide W64 1 10 0 3 (example_mem 5 6)).
  - apply example_mem_allocated; lia.
  - apply example_mem_allocated; lia.
  - lia.
  - intros _. split; [discriminate|]. intros i Hi [_ Hb]. discriminate Hb.
Defined.

Example shift_down_in_place :
  int64_add_scalar 1 10 0 3 (example_mem 5 6)
  = Some (list_to_map [(0, 16); (1, 87); (2, 98); (3, 88)]).
Proof. vm_compute. reflexivity. Qed.

(** With [result = a + 1] every round reads what the round before wrote. *)
Lemma for_from_chain g f a b len n : forall i (m : mem) v,
  (forall x, g x b = Some (f x b)) ->
  Z.of_nat n = len - i -> 0 <= i ->
  m !! (a + i) = Some v ->
  (forall j, i <= j <= len -> is_Some (m !! (a + j))) ->
  exists m' : mem,
    for_from n (elementwise g a b (a + 1)) i len m = Some m' /\
    forall j, i <= j <= len ->
      m' !! (a + j)
      = Some (iterate_op (Z.to_nat (j - i)) (fun x => f x b) v).
Proof.
  induction n as [|n IH]; intros i m v Hg Hn Hi Hv Hall.
  - exists m. split; [reflexivity|]. intros j Hj.
    replace j with i by lia. rewrite Z.sub_diag. exact Hv.
  - simpl. destruct (Z.ltb_spec i len) as [Hlt|Hge]; [|lia].
    assert (is_Some (m !! (a + 1 + i))) as Hnext.
    { replace (a + 1 + i) with (a + (i + 1)) by lia. apply Hall. lia. }
    rewrite (elementwise_step g a b (a + 1) i m v (f v b) Hv (Hg v) Hnext).
    simpl. set (m1 := <[a + 1 + i := f v b]> m).
    destruct (IH (i + 1) m1 (f v b)) as (m' & Hrun & Hval).
    + exact Hg.
    + lia.
    + lia.
    + unfold m1. replace (a + (i + 1)) with (a + 1 + i) by lia.
      apply lookup_insert_eq.
    + intros j Hj. apply insert_is_Some; auto. apply Hall. lia.
    + exists m'. split; [exact Hrun|]. intros j Hj.
      destruct (Z.eq_dec j i) as [->|Hne].
      * rewrite Z.sub_diag. simpl.
        destruct (for_from_returned _ _ _ _ _ _ _ _ _ Hrun) as [Hframe _].
        rewrite Hframe by lia. unfold m1.
        rewrite lookup_insert_ne by lia. exact Hv.
      * rewrite (Hval j) by lia.
        replace (Z.to_nat (j - i)) with (S (Z.to_nat (j - (i + 1)))) by lia.
        reflexivity.
Qed.

(** X2. A [result] one cell above [a] is not safe: each round reads the
    value the round before has just written, so that after the call cell
    [a + j] holds the operation applied [j] times to [a[0]], for every [j]
    in [0, len]; the other elements of the input never reach the output.
    For divide and modulo the scalar is taken other than 0 and -1, so that
    every division of the chain has a result. *)
Theorem result_one_above_input_chains o W a b len (m : mem) x0 :
  0 <= len -> allocated m a (len + 1) ->
  m !! a = Some x0 ->
  (is_division o = true -> b <> 0 /\ b <> -1) ->
  exists m' : mem,
    kernel o W a b (a + 1) len m = Some m' /\
    forall j, 0 <= j <= len ->
      m' !! (a + j)
      = Some (iterate_op (Z.to_nat j) (fun x => machine_op o W x b) x0).
Proof.
  intros Hlen Ha Hx0 Hb. rewrite kernel_elementwise. unfold for_loop.
  destruct (for_from_chain (partial_op o W) (machine_op o W) a b len
              (Z.to_nat len) 0 m x0)
    as (m' & Hrun & Hval).
  - intros x. apply partial_op_defined, op_defined_spec.
    intros Hd. destruct (Hb Hd). split; [assumption|]. intros [_ ?]. auto.
  - lia.
  - lia.
  - now rewrite Z.add_0_r.
  - intros j Hj. apply Ha. lia.
  - exists m'. split; [exact Hrun|]. intros j Hj.
    rewrite (Hval j Hj). now rewrite Z.sub_0_r.
Qed.

Lemma result_one_above_input_chains_witness :
  exists m' : mem,
    kernel Add W64 0 1 (0 + 1) 3 (example_mem 10 20) = Some m' /\
    forall j, 0 <= j <= 3 ->
      m' !! (0 + j)
      = Some (iterate_op (Z.to_nat j) (fun x => machine_op Add W64 x 1) 10).
Proof.
  apply (result_one_above_input_chains Add W64 0 1 3 (example_mem 10 20) 10).
  - lia.
  - apply example_mem_allocated; lia.
  - reflexivity.
  - discriminate.
Defined.

Example running_sum_instead_of_sums :
  int64_add_scalar 0 1 1 3 (example_mem 10 20)
  = Some (list_to_map [(0, 10); (1, 11); (2, 12); (3, 13)]).
Proof. vm_compute. reflexivity. Qed.

(** ** Chunks *)

Lemma for_from_ext body1 body2 len n : forall i (m : mem),
  (forall j m0, body1 j m0 = body2 j m0) ->
  for_from n body1 i len m = for_from n body2 i len m.
Proof.
  induction n as [|n IH]; intros i m Hext; [reflexivity|].
  simpl. destruct (i <? len); [|reflexivity].
  rewrite Hext. destruct (body2 i m) as [m1|]; simpl; auto.
Qed.

(** Stopping a loop early and resuming it where it stopped. *)
Lemma for_from_app body len n1 n2 : forall i (m : mem),
  i + Z.of_nat n1 + Z.of_nat n2 <= len ->
  for_from (n1 + n2) body i len m =
  m1 ← for_from n1 body i (i + Z.of_nat n1) m;
  for_from n2 body (i + Z.of_nat n1) len m1.
Proof.
  induction n1 as [|n1 IH]; intros i m Hle.
  - simpl. now rewrite Z.add_0_r.
  - cbn [Nat.add for_from].
    destruct (Z.ltb_spec i len) as [_|Hge]; [|lia].
    destruct (Z.ltb_spec i (i + Z.of_nat (S n1))) as [_|Hge]; [|lia].
    destruct (body i m) as [m1|]; [|reflexivity]. simpl.
    rewrite IH by lia.
    replace (i + 1 + Z.of_nat n1) with (i + Z.of_nat (S n1)) by lia.
    reflexivity.
Qed.

(** A loop from [i + k] to [len + k] is the loop from [i] to [len] over
    the body moved by [k]. *)
Lemma for_from_shift body k len n : forall i (m : mem),
  for_from n body (i + k) (len + k) m =
  for_from n (fun j => body (j + k)) i len m.
Proof.
  induction n as [|n IH]; intros i m; [reflexivity|].
  simpl. replace (i + k <? len + k) with (i <? len)
    by (destruct (Z.ltb_spec i len), (Z.ltb_spec (i + k) (len + k)); lia).
  destruct (i <? len); [|reflexivity].
  destruct (body (i + k) m) as [m1|]; [|reflexivity]. simpl.
  replace (i + k + 1) with (i + 1 + k) by lia. apply IH.
Qed.

(** X3. A call over [k + n] elements is a call over the first [k]
    followed by a call over the remaining [n], with both pointers advanced
    by [k]: same final memory, and a fault in the one exactly when in the
    other.  A column can be processed chunk by chunk. *)
Theorem kernel_splits_into_chunks o W a b result k n (m : mem) :
  0 <= k -> 0 <= n ->
  kernel o W a b result (k + n) m =
  m1 ← kernel o W a b result k m;
  kernel o W (a + k) b (result + k) n m1.
Proof.
  intros Hk Hn.
  transitivity
    (m1 ← for_loop k (elementwise (partial_op o W) a b result) m;
     for_loop n (elementwise (partial_op o W) (a + k) b (result + k)) m1).
  2:{ rewrite <- kernel_elementwise.
      destruct (kernel o W a b result k m) as [m1|]; [|reflexivity]. simpl.
      now rewrite kernel_elementwise. }
  rewrite kernel_elementwise.
  unfold for_loop.
  replace (Z.to_nat (k + n)) with (Z.to_nat k + Z.to_nat n)%nat by lia.
  rewrite for_from_app by lia.
  replace (0 + Z.of_nat (Z.to_nat k)) with k by lia.
  destruct (for_from (Z.to_nat k) _ 0 k m) as [m1|]; [|reflexivity]. simpl.
  replace k with (0 + k) at 1 by lia. rewrite (Z.add_comm k n).
  rewrite for_from_shift. apply for_from_ext.
  intros j m0. unfold elementwise.
  replace (a + (j + k)) with (a + k + j) by lia.
  replace (result + (j + k)) with (result + k + j) by lia. reflexivity.
Qed.

Lemma kernel_splits_into_chunks_witness :
  kernel Multiply W32 0 3 0 (1 + 3) (example_mem 4 5) =
  m1 ← kernel Multiply W32 0 3 0 1 (example_mem 4 5);
  kernel Multiply W32 (0 + 1) 3 (0 + 1) 3 m1.
Proof.
  apply (kernel_splits_into_chunks Multiply W32 0 3 0 1 3 (example_mem 4 5));
    lia.
Defined.

(** ** Arithmetic modulo [2^W] *)

Section Ring.
Variable W : width.

Lemma sint_add_l u v : sint W (sint W u + v) = sint W (u + v).
Proof.
  apply sint_congr_arg.
  rewrite Zplus_mod, sint_congruent, <- Zplus_mod. reflexivity.
Qed.

Lemma sint_add_r u v : sint W (u + sint W v) = sint W (u + v).
Proof.
  replace (u + sint W v) with (sint W v + u) by lia.
  rewrite sint_add_l. f_equal; lia.
Qed.

Lemma sint_mul_l u v : sint W (sint W u * v) = sint W (u * v).
Proof.
  apply sint_congr_arg.
  rewrite Zmult_mod, sint_congruent, <- Zmult_mod. reflexivity.
Qed.

Lemma sint_mul_r u v : sint W (u * sint W v) = sint W (u * v).
Proof.
  replace (u * sint W v) with (sint W v * u) by lia.
  rewrite sint_mul_l. f_equal; lia.
Qed.

Lemma add_add_w x b c : add_w W (add_w W x b) c = add_w W x (add_w W b c).
Proof.
  unfold add_w. rewrite sint_add_l, sint_add_r. f_equal; lia.
Qed.

Lemma mul_mul_w x b c : mul_w W (mul_w W x b) c = mul_w W x (mul_w W b c).
Proof.
  unfold mul_w. rewrite sint_mul_l, sint_mul_r. f_equal; lia.
Qed.

Lemma sub_as_add_w x b : sub_w W x b = add_w W x (sub_w W 0 b).
Proof.
  unfold sub_w, add_w. rewrite sint_add_r. f_equal; lia.
Qed.

Lemma mul_add_w x b c :
  mul_w W (add_w W x b) c = add_w W (mul_w W x c) (mul_w W b c).
Proof.
  unfold mul_w, add_w. rewrite sint_mul_l, sint_add_l, sint_add_r.
  f_equal; lia.
Qed.

Lemma add_sub_cancel_w x b : add_w W (sub_w W x b) b = sint W x.
Proof.
  unfold sub_w, add_w. rewrite sint_add_l. f_equal; lia.
Qed.

End Ring.

(** ** Kernels in sequence *)

(** Two kernels in sequence against one kernel, given that the three
    operators have a result on the elements they are given and the
    equation between them there. *)
Lemma kernel_chain_as_one o1 o2 o3 W a b1 tmp b2 b3 out len (m : mem) :
  allocated m a len -> allocated m tmp len -> allocated m out len ->
  aliased a tmp \/ disjoint a tmp len ->
  aliased tmp out \/ disjoint tmp out len ->
  aliased a out \/ disjoint a out len ->
  (forall i x, 0 <= i < len -> m !! (a + i) = Some x ->
     op_defined o1 W x b1 = true /\
     op_defined o2 W (machine_op o1 W x b1) b2 = true /\
     op_defined o3 W x b3 = true /\
     machine_op o2 W (machine_op o1 W x b1) b2 = machine_op o3 W x b3) ->
  exists m1 m2 m3 : mem,
    kernel o1 W a b1 tmp len m = Some m1 /\
    kernel o2 W tmp b2 out len m1 = Some m2 /\
    kernel o3 W a b3 out len m = Some m3 /\
    forall i, 0 <= i < len -> m2 !! (out + i) = m3 !! (out + i).
Proof.
  intros Ha Ht Ho Hat Hto Hao Heq.
  destruct (kernel_chain o1 o2 W a b1 tmp b2 out len m Ha Ht Ho)
    as (m1 & m2 & Hrun1 & Hrun2 & Hval2); auto using layout_no_clobber.
  { intros i x Hi Hx. destruct (Heq i x Hi Hx) as (? & ? & _). auto. }
  destruct (kernel_run o3 W a b3 out len m Ha Ho)
    as (m3 & Hrun3 & _ & _ & Hval3); auto using layout_no_clobber.
  { intros i x Hi Hx. now destruct (Heq i x Hi Hx) as (_ & _ & ? & _). }
  exists m1, m2, m3. repeat (split; [assumption|]).
  intros i Hi. rewrite Hval2, Hval3 by assumption.
  destruct (Ha i Hi) as [x Hx]. rewrite Hx. simpl. f_equal.
  now destruct (Heq i x Hi Hx) as (_ & _ & _ & ?).
Qed.

(** X5. Adding [b] and then [c] is adding their W-bit sum once, and
    multiplying by [b] and then by [c] is multiplying by their W-bit
    product once: the two passes and the single pass return with the same
    output, whatever overflows on the way. *)
Theorem same_operation_twice_fuses o W a b tmp c out len (m : mem) :
  o = Add \/ o = Multiply ->
  allocated m a len -> allocated m tmp len -> allocated m out len ->
  aliased a tmp \/ disjoint a tmp len ->
  aliased tmp out \/ disjoint tmp out len ->
  aliased a out \/ disjoint a out len ->
  exists m1 m2 m3 : mem,
    kernel o W a b tmp len m = Some m1 /\
    kernel o W tmp c out len m1 = Some m2 /\
    kernel o W a (machine_op o W b c) out len m = Some m3 /\
    forall i, 0 <= i < len -> m2 !! (out + i) = m3 !! (out + i).
Proof.
  intros Hop Ha Ht Ho Hat Hto Hao.
  apply kernel_chain_as_one; auto.
  intros i x _ _.
  assert (is_division o = false) as Hnd by (destruct Hop as [-> | ->]; reflexivity).
  repeat (split; [now apply op_defined_not_division|]).
  destruct Hop as [-> | ->]; simpl.
  - apply add_add_w.
  - apply mul_mul_w.
Qed.

Lemma same_operation_twice_fuses_witness :
  exists m1 m2 m3 : mem,
    kernel Multiply W32 0 65536 0 2 (example_mem 3 (-7)) = Some m1 /\
    kernel Multiply W32 0 65537 2 2 m1 = Some m2 /\
    kernel Multiply W32 0 (machine_op Multiply W32 65536 65537) 2 2
      (example_mem 3 (-7)) = Some m3 /\
    forall i, 0 <= i < 2 -> m2 !! (2 + i) = m3 !! (2 + i).
Proof.
  apply (same_operation_twice_fuses Multiply W32 0 65536 0 65537 2 2
           (example_mem 3 (-7))).
  - right. reflexivity.
  - apply example_mem_allocated; lia.
  - apply example_mem_allocated; lia.
  - apply example_mem_allocated; lia.
  - left. reflexivity.
  - right. unfold disjoint. lia.
  - right. unfold disjoint. lia.
Defined.

(** X6. Subtracting [b] is adding its W-bit negation [0 - b]: the two
    kernels give the same outcome on every memory and for every layout of
    the buffers, [b = MIN_VALUE] (its own negation) included. *)
Theorem subtract_is_add_of_negation W a b result len (m : mem) :
  kernel Subtract W a b result len m
  = kernel Add W a (sub_w W 0 b) result len m.
Proof.
  rewrite !kernel_elementwise. unfold for_loop. apply for_from_ext.
  intros j m0. unfold elementwise.
  destruct (load m0 (a + j)) as [x|]; [|reflexivity]. simpl.
  now rewrite sub_as_add_w.
Qed.

(** X7. Multiplication distributes over addition across two passes:
    adding [b] and then multiplying by [c] leaves the same output as
    multiplying by [c] and then adding the W-bit product of [b] and [c]. *)
Theorem multiply_distributes_over_add W a b tmp c out len (m : mem) :
  allocated m a len -> allocated m tmp len -> allocated m out len ->
  aliased a tmp \/ disjoint a tmp len ->
  aliased tmp out \/ disjoint tmp out len ->
  exists m1 m2 n1 n2 : mem,
    kernel Add W a b tmp len m = Some m1 /\
    kernel Multiply W tmp c out len m1 = Some m2 /\
    kernel Multiply W a c tmp len m = Some n1 /\
    kernel Add W tmp (mul_w W b c) out len n1 = Some n2 /\
    forall i, 0 <= i < len -> m2 !! (out + i) = n2 !! (out + i).
Proof.
  intros Ha Ht Ho Hat Hto.
  destruct (kernel_chain Add Multiply W a b tmp c out len m Ha Ht Ho)
    as (m1 & m2 & Hm1 & Hm2 & Hmv); auto using layout_no_clobber.
  destruct (kernel_chain Multiply Add W a c tmp (mul_w W b c) out len m
              Ha Ht Ho)
    as (n1 & n2 & Hn1 & Hn2 & Hnv); auto using layout_no_clobber.
  exists m1, m2, n1, n2. repeat (split; [assumption|]).
  intros i Hi. rewrite Hmv, Hnv by assumption.
  destruct (m !! (a + i)); [|reflexivity]. simpl. f_equal. apply mul_add_w.
Qed.

Lemma multiply_distributes_over_add_witness :
  exists m1 m2 n1 n2 : mem,
    kernel Add W64 0 7 0 2 (example_mem (MAX_VALUE W64) 5) = Some m1 /\
    kernel Multiply W64 0 3 2 2 m1 = Some m2 /\
    kernel Multiply W64 0 3 0 2 (example_mem (MAX_VALUE W64) 5) = Some n1 /\
    kernel Add W64 0 (mul_w W64 7 3) 2 2 n1 = Some n2 /\
    forall i, 0 <= i < 2 -> m2 !! (2 + i) = n2 !! (2 + i).
Proof.
  apply (multiply_distributes_over_add W64 0 7 0 3 2 2
           (example_mem (MAX_VALUE W64) 5)).
  - apply example_mem_allocated; lia.
  - apply example_mem_allocated; lia.
  - apply example_mem_allocated; lia.
  - left. reflexivity.
  - right. unfold disjoint. lia.
Defined.

(** X8. Adding [b] and subtracting it again, in either order, gives the
    input back even when the first pass overflows: the wrap-around of the
    second pass undoes that of the first.  Only the elements need to be
    values of the width. *)
Theorem add_and_subtract_undo_each_other o1 o2 W a b tmp out len (m : mem) :
  (o1 = Add /\ o2 = Subtract) \/ (o1 = Subtract /\ o2 = Add) ->
  allocated m a len -> allocated m tmp len -> allocated m out len ->
  aliased a tmp \/ disjoint a tmp len ->
  aliased tmp out \/ disjoint tmp out len ->
  (forall i x, 0 <= i < len -> m !! (a + i) = Some x -> in_range W x) ->
  exists m1 m2 : mem,
    kernel o1 W a b tmp len m = Some m1 /\
    kernel o2 W tmp b out len m1 = Some m2 /\
    forall i, 0 <= i < len -> m2 !! (out + i) = m !! (a + i).
Proof.
  intros Hops Ha Ht Ho Hat Hto Hrange.
  destruct (kernel_chain o1 o2 W a b tmp b out len m Ha Ht Ho)
    as (m1 & m2 & Hrun1 & Hrun2 & Hval); auto using layout_no_clobber.
  { intros i x _ _.
    destruct Hops as [[-> ->] | [-> ->]]; split; reflexivity. }
  exists m1, m2. split; [exact Hrun1|]. split; [exact Hrun2|].
  intros i Hi. rewrite Hval by assumption.
  destruct (Ha i Hi) as [x Hx]. rewrite Hx. simpl. f_equal.
  destruct Hops as [[-> ->] | [-> ->]]; simpl.
  - rewrite sub_add_cancel_w. apply sint_id. eauto.
  - rewrite add_sub_cancel_w. apply sint_id. eauto.
Qed.

Lemma add_and_subtract_undo_each_other_witness :
  exists m1 m2 : mem,
    kernel Add W64 0 9 0 2 (example_mem (MAX_VALUE W64) 5) = Some m1 /\
    kernel Subtract W64 0 9 2 2 m1 = Some m2 /\
    forall i, 0 <= i < 2 ->
      m2 !! (2 + i) = example_mem (MAX_VALUE W64) 5 !! (0 + i).
Proof.
  apply (add_and_subtract_undo_each_other Add Subtract W64 0 9 0 2 2
           (example_mem (MAX_VALUE W64) 5)).
  - left. split; reflexivity.
  - apply example_mem_allocated; lia.
  - apply example_mem_allocated; lia.
  - apply example_mem_allocated; lia.
  - left. reflexivity.
  - right. unfold disjoint. lia.
  - intros i x Hi Hx. assert (i = 0 \/ i = 1) as [-> | ->] by lia;
      vm_compute in Hx; injection Hx as <-; split; discriminate.
Defined.

Example overflowing_sum_comes_back :
  int64_add_scalar 0 9 0 2 (example_mem (MAX_VALUE W64) 5)
    = Some (example_mem (MIN_VALUE W64 + 8) 14) /\
  int64_sub_scalar 0 9 0 2 (example_mem (MIN_VALUE W64 + 8) 14)
    = Some (example_mem (MAX_VALUE W64) 5).
Proof. vm_compute. repeat split. Qed.

(** X9. Taking the remainder by the same [b] twice changes nothing after
    the first pass: the modulo kernel is idempotent, for a call whose
    divisions all have a result ([b <> 0], and no element [MIN_VALUE] when
    [b = -1]); the second pass then has one on every remainder too. *)
Theorem modulo_twice_is_modulo_once W a b tmp out len (m : mem) :
  allocated m a len -> allocated m tmp len -> allocated m out len ->
  aliased a tmp \/ disjoint a tmp len ->
  aliased tmp out \/ disjoint tmp out len ->
  aliased a out \/ disjoint a out len ->
  division_precondition Modulo W a b len m ->
  exists m1 m2 m3 : mem,
    kernel Modulo W a b tmp len m = Some m1 /\
    kernel Modulo W tmp b out len m1 = Some m2 /\
    kernel Modulo W a b out len m = Some m3 /\
    forall i, 0 <= i < len -> m2 !! (out + i) = m3 !! (out + i).
Proof.
  intros Ha Ht Ho Hat Hto Hao Hpre.
  apply kernel_chain_as_one; auto.
  intros i x Hi Hx.
  pose proof (division_precondition_defined _ _ _ _ _ _ Hpre i x Hi Hx) as Hd.
  destruct (Hpre eq_refl) as [Hb _].
  split; [exact Hd|]. split; [|split; [exact Hd|]].
  - apply op_defined_spec. intros _. split; [exact Hb|].
    intros [Hrem ->]. simpl in Hrem.
    change (-1) with (- (1)) in Hrem.
    rewrite Z.rem_opp_r, Z.rem_1_r in Hrem by lia.
    pose proof (half_modulus_pos W). unfold MIN_VALUE in Hrem. lia.
  - simpl. now apply Z.rem_rem.
Qed.

Lemma modulo_twice_is_modulo_once_witness :
  exists m1 m2 m3 : mem,
    kernel Modulo W32 0 4 0 2 (example_mem 9 (-9)) = Some m1 /\
    kernel Modulo W32 0 4 2 2 m1 = Some m2 /\
    kernel Modulo W32 0 4 2 2 (example_mem 9 (-9)) = Some m3 /\
    forall i, 0 <= i < 2 -> m2 !! (2 + i) = m3 !! (2 + i).
Proof.
  apply (modulo_twice_is_modulo_once W32 0 4 0 2 2 (example_mem 9 (-9))).
  - apply example_mem_allocated; lia.
  - apply example_mem_allocated; lia.
  - apply example_mem_allocated; lia.
  - left. reflexivity.
  - right. unfold disjoint. lia.
  - right. unfold disjoint. lia.
  - intros _. split; [discriminate|]. intros i Hi [_ Hb]. discriminate Hb.
Defined.

Lemma quot_abs_le x y : y <> 0 -> Z.abs (Z.quot x y) <= Z.abs x.
Proof.
  intros Hy. rewrite <- Z.quot_abs by assumption.
  apply Z.quot_le_upper_bound; [lia|]. nia.
Qed.

Lemma quot_not_min W x y :
  in_range W x -> x <> MIN_VALUE W -> y <> 0 -> Z.quot x y <> MIN_VALUE W.
Proof.
  intros Hx Hmin Hy E. pose proof (quot_abs_le x y Hy) as Hle.
  unfold in_range, MIN_VALUE, MAX_VALUE in *.
  pose proof (half_modulus_pos W). lia.
Qed.

(** X10. Dividing by [b] and then by [c] is dividing by [b * c] once, for
    nonzero scalars whose product is a value of the width and elements
    other than [MIN_VALUE]: truncation twice loses what truncation once
    loses. *)
Theorem divide_twice_fuses W a b tmp c out len (m : mem) :
  b <> 0 -> c <> 0 -> in_range W (b * c) ->
  allocated m a len -> allocated m tmp len -> allocated m out len ->
  aliased a tmp \/ disjoint a tmp len ->
  aliased tmp out \/ disjoint tmp out len ->
  aliased a out \/ disjoint a out len ->
  (forall i x, 0 <= i < len -> m !! (a + i) = Some x ->
     in_range W x /\ x <> MIN_VALUE W) ->
  exists m1 m2 m3 : mem,
    kernel Divide W a b tmp len m = Some m1 /\
    kernel Divide W tmp c out len m1 = Some m2 /\
    kernel Divide W a (b * c) out len m = Some m3 /\
    forall i, 0 <= i < len -> m2 !! (out + i) = m3 !! (out + i).
Proof.
  intros Hb Hc Hbc Ha Ht Ho Hat Hto Hao Hrange.
  apply kernel_chain_as_one; auto.
  intros i x Hi Hx. destruct (Hrange i x Hi Hx) as [Hxr Hmin].
  assert (b * c <> 0) as Hbc0 by nia.
  split; [|split; [|split]].
  - apply op_defined_spec. intros _. split; [exact Hb|]. now intros [? _].
  - apply op_defined_spec. intros _. split; [exact Hc|].
    intros [E _]. simpl in E. now apply (quot_not_min W x b).
  - apply op_defined_spec. intros _. split; [exact Hbc0|]. now intros [? _].
  - simpl. now apply Z.quot_quot.
Qed.

Lemma divide_twice_fuses_witness :
  exists m1 m2 m3 : mem,
    kernel Divide W32 0 (-2) 0 2 (example_mem 7 (-9)) = Some m1 /\
    kernel Divide W32 0 2 2 2 m1 = Some m2 /\
    kernel Divide W32 0 (-2 * 2) 2 2 (example_mem 7 (-9)) = Some m3 /\
    forall i, 0 <= i < 2 -> m2 !! (2 + i) = m3 !! (2 + i).
Proof.
  apply (divide_twice_fuses W32 0 (-2) 0 2 2 2 (example_mem 7 (-9))).
  - discriminate.
  - discriminate.
  - split; discriminate.
  - apply example_mem_allocated; lia.
  - apply example_mem_allocated; lia.
  - apply example_mem_allocated; lia.
  - left. reflexivity.
  - right. unfold disjoint. lia.
  - right. unfold disjoint. lia.
  - intros i x Hi Hx. assert (i = 0 \/ i = 1) as [-> | ->] by lia;
      vm_compute in Hx; injection Hx as <-; repeat split; discriminate.
Defined.

(** ** Scalars with a fixed effect *)

Lemma zero_in_range W : in_range W 0.
Proof.
  unfold in_range, MIN_VALUE, MAX_VALUE. pose proof (half_modulus_pos W). lia.
Qed.

Lemma machine_op_neutral o W x b :
  neutral_scalar o b = true -> in_range W x -> machine_op o W x b = x.
Proof.
  intros Hb Hx. destruct o; simpl in *; try discriminate;
    apply Z.eqb_eq in Hb; subst b.
  - unfold add_w. rewrite Z.add_0_r. now apply sint_id.
  - unfold sub_w. rewrite Z.sub_0_r. now apply sint_id.
  - unfold mul_w. rewrite Z.mul_1_r. now apply sint_id.
  - apply Z.quot_1_r.
Qed.

Lemma neutral_scalar_defined o W x b :
  neutral_scalar o b = true -> op_defined o W x b = true.
Proof.
  intros Hb. apply op_defined_spec. intros Hd.
  destruct o; try discriminate. simpl in Hb. apply Z.eqb_eq in Hb. lia.
Qed.

Lemma machine_op_zeroing o W x b :
  zeroing_scalar o b = true -> machine_op o W x b = 0.
Proof.
  intros Hb. destruct o; simpl in *; try discriminate;
    apply Z.eqb_eq in Hb; subst b.
  - unfold mul_w. rewrite Z.mul_0_r. apply sint_id, zero_in_range.
  - apply Z.rem_1_r.
Qed.

Lemma zeroing_scalar_defined o W x b :
  zeroing_scalar o b = true -> op_defined o W x b = true.
Proof.
  intros Hb. apply op_defined_spec. intros Hd.
  destruct o; try discriminate. simpl in Hb. apply Z.eqb_eq in Hb. lia.
Qed.

(** X11. With the scalar that is neutral for the operation (0 for add and
    subtract, 1 for multiply and divide) a kernel copies [a] to [result]
    when the elements are values of the width, and run in place it returns
    the very memory it was given. *)
Theorem neutral_scalar_copies o W a b result len (m : mem) :
  neutral_scalar o b = true ->
  allocated m a len -> allocated m result len ->
  aliased a result \/ disjoint a result len ->
  (forall i x, 0 <= i < len -> m !! (a + i) = Some x -> in_range W x) ->
  exists m' : mem,
    kernel o W a b result len m = Some m' /\
    (forall i, 0 <= i < len -> m' !! (result + i) = m !! (a + i)) /\
    (aliased a result -> m' = m).
Proof.
  intros Hb Ha Hr Hbuf Hrange.
  destruct (kernel_run o W a b result len m Ha Hr)
    as (m' & Hrun & Hframe & _ & Hval).
  { now apply layout_no_clobber. }
  { intros j x _ _. now apply neutral_scalar_defined. }
  assert (forall i, 0 <= i < len -> m' !! (result + i) = m !! (a + i)) as Hcopy.
  { intros i Hi. rewrite Hval by assumption.
    destruct (Ha i Hi) as [x Hx]. rewrite Hx. simpl. f_equal.
    apply machine_op_neutral; eauto. }
  exists m'. split; [exact Hrun|]. split; [exact Hcopy|].
  intros Hal. unfold aliased in Hal. subst result.
  apply map_eq. intros p.
  destruct (decide (a <= p < a + len)) as [Hin|Hout].
  - replace p with (a + (p - a)) by lia. apply Hcopy. lia.
  - now apply Hframe.
Qed.

Lemma neutral_scalar_copies_witness :
  exists m' : mem,
    kernel Divide W32 0 1 0 2 (example_mem 7 (-9)) = Some m' /\
    (forall i, 0 <= i < 2 ->
       m' !! (0 + i) = example_mem 7 (-9) !! (0 + i)) /\
    (aliased 0 0 -> m' = example_mem 7 (-9)).
Proof.
  apply (neutral_scalar_copies Divide W32 0 1 0 2 (example_mem 7 (-9))).
  - reflexivity.
  - apply example_mem_allocated; lia.
  - apply example_mem_allocated; lia.
  - left. reflexivity.
  - intros i x Hi Hx. assert (i = 0 \/ i = 1) as [-> | ->] by lia;
      vm_compute in Hx; injection Hx as <-; split; discriminate.
Defined.

Section Written.
Variable P : Z -> Prop.
Variable g : Z -> Z -> option Z.
Variables a b result len : Z.
Hypothesis g_in_P : forall x v, g x b = Some v -> P v.

(** Whatever a run leaves in a cell satisfies [P] or was there before. *)
Lemma for_from_new_values n : forall i (m m' : mem),
  for_from n (elementwise g a b result) i len m = Some m' ->
  forall p v, m' !! p = Some v -> P v \/ m !! p = Some v.
Proof.
  induction n as [|n IH]; intros i m m' Hrun p v Hv.
  - injection Hrun as <-. now right.
  - simpl in Hrun. destruct (i <? len).
    2:{ injection Hrun as <-. now right. }
    destruct (elementwise g a b result i m) as [m1|] eqn:Hbody;
      [|discriminate].
    simpl in Hrun.
    destruct (elementwise_inv _ _ _ _ _ _ _ Hbody) as (x & w & Hx & Hw & _ & ->).
    destruct (IH _ _ _ Hrun p v Hv) as [Hin|Hold]; [now left|].
    destruct (decide (result + i = p)) as [<-|Hne].
    + rewrite lookup_insert_eq in Hold. injection Hold as <-.
      left. eauto.
    + rewrite lookup_insert_ne in Hold by assumption. now right.
Qed.

(** Every cell of [result[i..len)] ends with a value satisfying [P]. *)
Lemma for_from_result_values n : forall i (m m' : mem),
  Z.of_nat n = len - i ->
  for_from n (elementwise g a b result) i len m = Some m' ->
  forall p v, result + i <= p < result + len ->
    m' !! p = Some v -> P v.
Proof.
  induction n as [|n IH]; intros i m m' Hn Hrun p v Hp Hv; [lia|].
  simpl in Hrun. destruct (Z.ltb_spec i len) as [Hlt|Hge]; [|lia].
  destruct (elementwise g a b result i m) as [m1|] eqn:Hbody; [|discriminate].
  simpl in Hrun.
  destruct (elementwise_inv _ _ _ _ _ _ _ Hbody) as (x & w & Hx & Hw & _ & ->).
  destruct (Z.eq_dec p (result + i)) as [->|Hne].
  - destruct (for_from_new_values _ _ _ _ Hrun _ _ Hv) as [Hin|Hold];
      [exact Hin|].
    rewrite lookup_insert_eq in Hold. injection Hold as <-. eauto.
  - apply (IH (i + 1) _ m' ltac:(lia) Hrun p v); [lia|exact Hv].
Qed.
End Written.

(** X12. Multiplying by 0, and taking the remainder by 1, fills
    [result[0..len)] with zeros whatever the input holds and however the
    buffers overlap. *)
Theorem zeroing_scalar_clears o W a b result len (m : mem) :
  zeroing_scalar o b = true ->
  allocated m a len -> allocated m result len ->
  exists m' : mem,
    kernel o W a b result len m = Some m' /\
    forall i, 0 <= i < len -> m' !! (result + i) = Some 0.
Proof.
  intros Hb Ha Hr.
  destruct (for_from_total (partial_op o W) a b result len (Z.to_nat len) 0 m)
    as [m' Hrun].
  { intros x. rewrite partial_op_defined by now apply zeroing_scalar_defined.
    eauto. }
  { intros j Hj. apply Ha. lia. }
  { intros j Hj. apply Hr. lia. }
  assert (kernel o W a b result len m = Some m') as Hk
    by (rewrite kernel_elementwise; exact Hrun).
  exists m'. split; [exact Hk|].
  intros i Hi.
  destruct (kernel_returned _ _ _ _ _ _ _ _ Hk) as [_ Hdom].
  destruct (proj2 (Hdom (result + i)) (Hr i Hi)) as [v Hv].
  rewrite Hv. f_equal.
  apply (for_from_result_values (fun v => v = 0) (partial_op o W) a b
           result len) with (n := Z.to_nat len) (i := 0) (m := m) (m' := m')
           (p := result + i); auto; try lia.
  intros x w Hw.
  rewrite partial_op_defined in Hw by now apply zeroing_scalar_defined.
  injection Hw as <-. now apply machine_op_zeroing.
Qed.

Lemma zeroing_scalar_clears_witness :
  exists m' : mem,
    kernel Modulo W64 0 1 1 2 (example_mem (MIN_VALUE W64) 6) = Some m' /\
    forall i, 0 <= i < 2 -> m' !! (1 + i) = Some 0.
Proof.
  apply (zeroing_scalar_clears Modulo W64 0 1 1 2
           (example_mem (MIN_VALUE W64) 6)).
  - reflexivity.
  - apply example_mem_allocated; lia.
  - apply example_mem_allocated; lia.
Defined.

(** ** The two widths *)

Lemma sint32_sint64 z : sint W32 (sint W64 z) = sint W32 z.
Proof.
  apply sint_congr_arg.
  assert ((modulus W32 | modulus W64)) as Hdiv
    by (exists (modulus W32); reflexivity).
  rewrite <- (Z.mod_mod_divide (sint W64 z) _ _ Hdiv), sint_congruent.
  now apply Z.mod_mod_divide.
Qed.

(** On 32-bit operands for which the 32-bit operator has a result, the
    64-bit operator has one too, and the 32-bit result is its low 32
    bits. *)
Lemma machine_op_narrows o x y :
  in_range W32 x -> op_defined o W32 x y = true ->
  op_defined o W64 x y = true /\
  machine_op o W32 x y = sint W32 (machine_op o W64 x y).
Proof.
  intros Hx Hd. split.
  - apply op_defined_spec. intros Ho.
    destruct (proj1 (op_defined_spec W32 o x y) Hd Ho) as [Hy _].
    split; [exact Hy|]. intros [-> _].
    unfold in_range, MIN_VALUE, MAX_VALUE in Hx.
    change (half_modulus W32) with 2147483648 in Hx.
    change (half_modulus W64) with 9223372036854775808 in Hx. lia.
  - destruct o; simpl.
    + unfold add_w. now rewrite sint32_sint64.
    + unfold sub_w. now rewrite sint32_sint64.
    + unfold mul_w. now rewrite sint32_sint64.
    + destruct (proj1 (op_defined_spec W32 Divide x y) Hd eq_refl).
      symmetry. apply sint_id. now apply quot_in_range.
    + destruct (proj1 (op_defined_spec W32 Modulo x y) Hd eq_refl).
      symmetry. apply sint_id. now apply rem_in_range.
Qed.

(** X13. A 32-bit kernel and the 64-bit kernel of the same operation, run
    with the same scalar on buffers that hold the same 32-bit values, in a
    call whose divisions all have a result, agree up to the width: each
    32-bit output is the low 32 bits, read as a signed integer, of the
    64-bit output at the same index. *)
Theorem int32_kernel_narrows_int64_kernel o b len
    a32 r32 (m32 : mem) a64 r64 (m64 : mem) :
  allocated m32 a32 len -> allocated m32 r32 len ->
  allocated m64 a64 len -> allocated m64 r64 len ->
  aliased a32 r32 \/ disjoint a32 r32 len ->
  aliased a64 r64 \/ disjoint a64 r64 len ->
  (forall i, 0 <= i < len -> m32 !! (a32 + i) = m64 !! (a64 + i)) ->
  (forall i x, 0 <= i < len -> m32 !! (a32 + i) = Some x -> in_range W32 x) ->
  division_precondition o W32 a32 b len m32 ->
  exists m32' m64' : mem,
    kernel o W32 a32 b r32 len m32 = Some m32' /\
    kernel o W64 a64 b r64 len m64 = Some m64' /\
    forall i, 0 <= i < len ->
      exists v, m64' !! (r64 + i) = Some v /\
                m32' !! (r32 + i) = Some (sint W32 v).
Proof.
  intros Ha32 Hr32 Ha64 Hr64 Hl32 Hl64 Hsame Hrange Hpre.
  pose proof (division_precondition_defined _ _ _ _ _ _ Hpre) as Hdef.
  destruct (kernel_run o W32 a32 b r32 len m32 Ha32 Hr32)
    as (m32' & Hrun32 & _ & _ & Hval32);
    [now apply layout_no_clobber|exact Hdef|].
  destruct (kernel_run o W64 a64 b r64 len m64 Ha64 Hr64)
    as (m64' & Hrun64 & _ & _ & Hval64).
  { now apply layout_no_clobber. }
  { intros j x Hj Hx. rewrite <- Hsame in Hx by assumption.
    apply machine_op_narrows; eauto. }
  exists m32', m64'. split; [exact Hrun32|]. split; [exact Hrun64|].
  intros i Hi. destruct (Ha32 i Hi) as [x Hx].
  exists (machine_op o W64 x b). split.
  - now rewrite Hval64, <- Hsame, Hx.
  - rewrite Hval32, Hx by assumption. simpl. f_equal.
    apply machine_op_narrows; eauto.
Qed.

Lemma int32_kernel_narrows_int64_kernel_witness :
  exists m32' m64' : mem,
    kernel Multiply W32 0 65536 2 2 (example_mem 65536 (-9)) = Some m32' /\
    kernel Multiply W64 0 65536 0 2 (example_mem 65536 (-9)) = Some m64' /\
    forall i, 0 <= i < 2 ->
      exists v, m64' !! (0 + i) = Some v /\
                m32' !! (2 + i) = Some (sint W32 v).
Proof.
  apply (int32_kernel_narrows_int64_kernel Multiply 65536 2
           0 2 (example_mem 65536 (-9)) 0 0 (example_mem 65536 (-9))).
  - apply example_mem_allocated; lia.
  - apply example_mem_allocated; lia.
  - apply example_mem_allocated; lia.
  - apply example_mem_allocated; lia.
  - right. unfold disjoint. lia.
  - left. reflexivity.
  - intros i Hi. reflexivity.
  - intros i x Hi Hx. assert (i = 0 \/ i = 1) as [-> | ->] by lia;
      vm_compute in Hx; injection Hx as <-; split; discriminate.
  - intros Hd. discriminate Hd.
Defined.

Example widths_differ_on_overflow :
  int32_mul_scalar 0 65536 0 1 (example_mem 65536 0)
    = Some (example_mem 0 0) /\
  int64_mul_scalar 0 65536 0 1 (example_mem 65536 0)
    = Some (example_mem 4294967296 0).
Proof. vm_compute. repeat split. Qed.
